(** * WinampRPC-LastFM: the presence-update pipeline of [main.py]

    A shallow embedding of [src/main.py]: the string operations the script
    applies to the now-playing title, the Last.FM artwork resolver working on
    decoded JSON documents, the update driver [update_rpc] and the poll loop.

    Conventions.
    - A Python [str] is a [string]; a character is a code point below 256.
    - Integers are [Z]; the two floats of [update_rpc] (the position in
      seconds and the clock) are rationals [Q]: the comparison against
      100000 comes out as in floating point, the division, the subtraction
      and [int] are without the rounding to a double.
    - In [update_rpc], [tick] and [Startup.startup] the calls on the player
      and on the presence client return; [update_rpc_faulty] is the driver
      with calls that may raise.
    - An exception is a value of [exn]; a computation that may raise has a
      type [res A].  Module-level variables assigned by the functions
      ([previous_track], [cleared]) form the record [session], threaded
      explicitly; an assignment made before an exception is raised stays. *)

From Stdlib Require Import List String Ascii Bool Arith ZArith QArith Lia.
From Stdlib Require Import DecimalString.
From Stdlib Require Import Lqa.
Import ListNotations.

Local Close Scope Q_scope.
Local Open Scope nat_scope.
Local Open Scope list_scope.
Local Open Scope string_scope.

(** ** Python strings *)

Module PyStr.

(** [c in chars], for a character and a string used as a set of characters. *)
Fixpoint mem (c : ascii) (chars : string) : bool :=
  match chars with
  | EmptyString => false
  | String d rest => Ascii.eqb c d || mem c rest
  end.

(** [str.isspace] on one character; the same set is what [\s] matches in a
    [str] pattern: TAB, LF, VT, FF, CR, FS, GS, RS, US, SPACE, NEL, NBSP. *)
Definition is_space (c : ascii) : bool :=
  let n := nat_of_ascii c in
  (Nat.leb 9 n && Nat.leb n 13) || (Nat.leb 28 n && Nat.leb n 32)
  || Nat.eqb n 133 || Nat.eqb n 160.

Definition newline : ascii := ascii_of_nat 10.

(** [s.lstrip(chars)] with the set of characters given as a predicate. *)
Fixpoint lstrip_by (p : ascii -> bool) (s : string) : string :=
  match s with
  | EmptyString => EmptyString
  | String c rest => if p c then lstrip_by p rest else s
  end.

(** [s.rstrip(chars)]: a character is dropped when it is in the set and
    everything after it has been dropped. *)
Fixpoint rstrip_by (p : ascii -> bool) (s : string) : string :=
  match s with
  | EmptyString => EmptyString
  | String c rest =>
      match rstrip_by p rest with
      | EmptyString => if p c then EmptyString else String c EmptyString
      | kept => String c kept
      end
  end.

Definition strip_by (p : ascii -> bool) (s : string) : string :=
  rstrip_by p (lstrip_by p s).

(** [s.strip(chars)]: [chars] is a set of characters, not a prefix. *)
Definition strip_chars (chars s : string) : string :=
  strip_by (fun c => mem c chars) s.

(** [s.strip()] *)
Definition strip (s : string) : string := strip_by is_space s.

(** [s.startswith(p)] *)
Fixpoint starts_with (p s : string) : bool :=
  match p with
  | EmptyString => true
  | String a p' =>
      match s with
      | EmptyString => false
      | String b s' => Ascii.eqb a b && starts_with p' s'
      end
  end.

(** The segments [segs] with [c] put in front of the first one. *)
Definition push_char (c : ascii) (segs : list string) : list string :=
  match segs with
  | seg :: more => String c seg :: more
  | [] => [String c EmptyString]
  end.

(** The delimiter of the now-playing title. *)
Definition dash : string := " - ".

(** [s.split(" - ")]: the segments between the leftmost, non-overlapping
    occurrences of the three characters SPACE, HYPHEN, SPACE.  Where [s]
    starts with them a segment ends and the scan goes on three characters
    further; any other character goes to the current segment. *)
Fixpoint split_dash (s : string) : list string :=
  match s with
  | EmptyString => [EmptyString]
  | String c rest =>
      if starts_with dash s then
        match rest with
        | String _ (String _ after) => EmptyString :: split_dash after
        | _ => push_char c (split_dash rest)
        end
      else push_char c (split_dash rest)
  end.

(** [" - ".join(l)] *)
Definition join_dash (l : list string) : string := String.concat dash l.

(** [l[:-1]] *)
Definition all_but_last {A} (l : list A) : list A := removelast l.

(** [str(n)] for an integer. *)
Definition str_of_int (n : Z) : string := NilZero.string_of_int (Z.to_int n).

(** [sub in s] on strings: [sub] occurs in [s]. *)
Fixpoint contains (sub s : string) : bool :=
  starts_with sub s ||
  match s with
  | EmptyString => false
  | String _ rest => contains sub rest
  end.

End PyStr.

Import PyStr.

(** ** The three substitutions of [clean_string] *)

Module Re.

(** The lazy body [.*?] followed by the closing character: from the
    character after the opener, a closing character [c] is reached before
    the end of the line ([.] matches every character but LF). *)
Fixpoint closes (c : ascii) (s : string) : bool :=
  match s with
  | EmptyString => false
  | String d rest =>
      if Ascii.eqb d c then true
      else if Ascii.eqb d newline then false
      else closes c rest
  end.

(** [re.sub(o .*? c, '', s)] for an opening and a closing character, as one
    left-to-right scan.  Outside a match ([inside = false]) the pattern
    matches at an opener that [closes]; the scanner then is inside the match
    and drops characters up to and including the nearest closer, which is
    where the lazy match ends.  Every other character is copied. *)
Fixpoint sub_group (o c : ascii) (inside : bool) (s : string) : string :=
  match s with
  | EmptyString => EmptyString
  | String d rest =>
      if inside then
        sub_group o c (negb (Ascii.eqb d c)) rest
      else if Ascii.eqb d o && closes c rest then
        sub_group o c true rest
      else String d (sub_group o c false rest)
  end.

(** [re.sub(r'\s+', ' ', s)]: the first character of a run of whitespace
    becomes one space and the rest of the run ([in_run = true]) is dropped. *)
Fixpoint sub_spaces (in_run : bool) (s : string) : string :=
  match s with
  | EmptyString => EmptyString
  | String d rest =>
      if is_space d then
        if in_run then sub_spaces true rest
        else String " " (sub_spaces true rest)
      else String d (sub_spaces false rest)
  end.

End Re.

(** [clean_string(text)] *)
Definition clean_string (text : string) : string :=
  let text := Re.sub_group "(" ")" false text in
  let text := Re.sub_group "[" "]" false text in
  let text := Re.sub_spaces false text in
  strip text.

(** ** Python values and exceptions *)

(** What [response.json()] can return, and [None]. *)
#[local] Unset Elimination Schemes.
Inductive pyval : Type :=
| PNone
| PBool (b : bool)
| PInt (z : Z)
| PFloat (q : Q)
| PStr (s : string)
| PList (l : list pyval)
| PDict (d : list (string * pyval)).
#[local] Set Elimination Schemes.

(** The exceptions the script can meet; all derive from [Exception].
    [External] is one raised by a collaborator (the HTTP client, the JSON
    decoder, the player, the file system). *)
Inductive exn : Type :=
| IndexError
| KeyError
| TypeError
| AttributeError
| External (name : string).

Definition res (A : Type) : Type := (exn + A)%type.

Definition ret {A} (a : A) : res A := inr a.
Definition raise {A} (e : exn) : res A := inl e.

Definition bind {A B} (m : res A) (k : A -> res B) : res B :=
  match m with
  | inl e => inl e
  | inr a => k a
  end.

(** [try: body  except Exception as e: handler e] *)
Definition try_except {A} (body : res A) (handler : exn -> res A) : res A :=
  match body with
  | inl e => handler e
  | inr a => inr a
  end.

Declare Scope py_scope.
Delimit Scope py_scope with py.
Notation "x <- m ;; k" := (bind m (fun x => k))
  (at level 61, m at next level, right associativity) : py_scope.
Notation "' p <- m ;; k" := (bind m (fun p => k))
  (at level 61, p pattern, m at next level, right associativity) : py_scope.

Module Py.

(** [bool(v)] *)
Definition truthy (v : pyval) : bool :=
  match v with
  | PNone => false
  | PBool b => b
  | PInt z => negb (Z.eqb z 0)
  | PFloat q => negb (Qeq_bool q 0)
  | PStr s => negb (String.eqb s "")
  | PList l => negb (Nat.eqb (List.length l) 0)
  | PDict d => negb (Nat.eqb (List.length d) 0)
  end.

(** The binding of a key in a dict. *)
Fixpoint lookup (key : string) (d : list (string * pyval)) : option pyval :=
  match d with
  | [] => None
  | (k, v) :: rest => if String.eqb k key then Some v else lookup key rest
  end.

(** [v == s] for a string [s]. *)
Definition eq_str (v : pyval) (s : string) : bool :=
  match v with
  | PStr t => String.eqb t s
  | _ => false
  end.

(** [key in v] *)
Definition contains_key (key : string) (v : pyval) : res bool :=
  match v with
  | PDict d => ret (match lookup key d with Some _ => true | None => false end)
  | PList l => ret (existsb (fun x => eq_str x key) l)
  | PStr s => ret (contains key s)
  | _ => raise TypeError
  end.

(** [v[key]] for a string key. *)
Definition getitem (v : pyval) (key : string) : res pyval :=
  match v with
  | PDict d => match lookup key d with Some x => ret x | None => raise KeyError end
  | _ => raise TypeError
  end.

(** [v.get(key, default)]; only a dict has the method. *)
Definition get (v : pyval) (key : string) (default : pyval) : res pyval :=
  match v with
  | PDict d => ret (match lookup key d with Some x => x | None => default end)
  | _ => raise AttributeError
  end.

(** The items [for x in v] runs through. *)
Definition iter (v : pyval) : res (list pyval) :=
  match v with
  | PList l => ret l
  | PDict d => ret (map (fun kv => PStr (fst kv)) d)
  | PStr s => ret (map (fun c => PStr (String c EmptyString)) (list_ascii_of_string s))
  | _ => raise TypeError
  end.

(** [len(v)] *)
Definition len (v : pyval) : res nat :=
  match v with
  | PStr s => ret (String.length s)
  | PList l => ret (List.length l)
  | PDict d => ret (List.length d)
  | _ => raise TypeError
  end.

End Py.

Local Open Scope py_scope.

(** ** Image selection *)

Definition size_priority : list string := ["extralarge"; "large"; "medium"; "small"].

(** [for img in imgs: if test(img): return img['#text']]; [None] when the
    loop ends without returning. *)
Fixpoint first_image (test : pyval -> res bool) (imgs : list pyval)
  : res (option pyval) :=
  match imgs with
  | [] => ret None
  | img :: rest =>
      ok <- test img ;;
      if ok then (url <- Py.getitem img "#text" ;; ret (Some url))
      else first_image test rest
  end.

(** [img.get('size') == size and img.get('#text')] *)
Definition image_of_size (size : string) (img : pyval) : res bool :=
  label <- Py.get img "size" PNone ;;
  if Py.eq_str label size then
    (url <- Py.get img "#text" PNone ;; ret (Py.truthy url))
  else ret false.

(** [img.get('#text')] as a condition. *)
Definition image_with_url (img : pyval) : res bool :=
  url <- Py.get img "#text" PNone ;; ret (Py.truthy url).

(** The loop over [size_priority], then the loop over any image. *)
Fixpoint largest_from (sizes : list string) (images : pyval) : res pyval :=
  match sizes with
  | size :: more =>
      imgs <- Py.iter images ;;
      found <- first_image (image_of_size size) imgs ;;
      match found with
      | Some url => ret url
      | None => largest_from more images
      end
  | [] =>
      imgs <- Py.iter images ;;
      found <- first_image image_with_url imgs ;;
      match found with
      | Some url => ret url
      | None => ret PNone
      end
  end.

(** [get_largest_image(images)] *)
Definition get_largest_image (images : pyval) : res pyval :=
  if negb (Py.truthy images) then ret PNone
  else largest_from size_priority images.

Definition image (size url : string) : pyval :=
  PDict [("#text", PStr url); ("size", PStr size)].

(** ** The Last.FM resolver *)

(** The two web-service calls.  Each stands for [requests.get(...)] followed
    by [response.json()]: the call raises, or yields the decoded document. *)
Record lastfm : Type := {
  track_getInfo : string -> string -> res pyval;
  artist_getTopAlbums : string -> res pyval
}.

(** The module-level configuration, as it stands when the loop starts. *)
Record settings : Type := {
  use_direct_urls : bool;
  custom_assets : bool;
  fallback_image_url : string;
  default_large_key : string;
  default_large_text : string;
  small_asset_key : string;
  small_asset_text : string;
  winamp_version : string;
  album_exceptions : list string;
  album_asset_keys : list (string * pyval)
}.

(** [get_album_from_track(artist, track)]; the [print] of the handler is
    not modelled. *)
Definition get_album_from_track (api : lastfm) (artist track : string)
  : res (pyval * pyval) :=
  found <- try_except
    (data <- track_getInfo api artist track ;;
     has_track <- Py.contains_key "track" data ;;
     if has_track then
       info <- Py.getitem data "track" ;;
       has_album <- Py.contains_key "album" info ;;
       if has_album then
         info <- Py.getitem data "track" ;;
         album <- Py.getitem info "album" ;;
         album_name <- Py.get album "title" (PStr "") ;;
         images <- Py.get album "image" (PList []) ;;
         image_url <- get_largest_image images ;;
         ret (Some (album_name, image_url))
       else ret None
     else ret None)
    (fun _ => ret None) ;;
  match found with
  | Some p => ret p
  | None => ret (PNone, PNone)
  end.

(** [albums[0] if isinstance(albums, list) else albums] *)
Definition first_album (albums : pyval) : res pyval :=
  match albums with
  | PList (album :: _) => ret album
  | PList [] => raise IndexError
  | _ => ret albums
  end.

(** [get_album_from_artist(artist)] *)
Definition get_album_from_artist (api : lastfm) (artist : string)
  : res (pyval * pyval) :=
  found <- try_except
    (data <- artist_getTopAlbums api artist ;;
     has_top <- Py.contains_key "topalbums" data ;;
     if has_top then
       top <- Py.getitem data "topalbums" ;;
       has_album <- Py.contains_key "album" top ;;
       if has_album then
         top <- Py.getitem data "topalbums" ;;
         albums <- Py.getitem top "album" ;;
         if Py.truthy albums then
           album <- first_album albums ;;
           album_name <- Py.get album "name" (PStr "") ;;
           images <- Py.get album "image" (PList []) ;;
           image_url <- get_largest_image images ;;
           ret (Some (album_name, image_url))
         else ret None
       else ret None
     else ret None)
    (fun _ => ret None) ;;
  match found with
  | Some p => ret p
  | None => ret (PNone, PNone)
  end.

Section Resolver.

(** [str(v)] of a value that is not a string, used by the f-strings; the
    resolvers format such a value only when a document carries a list or a
    dict of one item where a title is expected. *)
Variable repr : pyval -> string.

Variable cfg : settings.

Definition format (v : pyval) : string :=
  match v with
  | PStr s => s
  | _ => repr v
  end.

(** [fallback_image_url if fallback_image_url else "logo"] *)
Definition fallback_or_logo : pyval :=
  if negb (String.eqb (fallback_image_url cfg) "")
  then PStr (fallback_image_url cfg) else PStr "logo".

(** The body of the [try] of [get_album_art_url]. *)
Definition album_art_url_body (api : lastfm) (artist track_name : string)
  : res (pyval * pyval) :=
  let artist_clean := clean_string artist in
  let track_clean := clean_string track_name in
  '(album_name, image_url) <- get_album_from_track api artist_clean track_clean ;;
  '(album_name, image_url) <-
     (if negb (Py.truthy album_name) || negb (Py.truthy image_url)
      then get_album_from_artist api artist_clean
      else ret (album_name, image_url)) ;;
  let large_asset_text := if Py.truthy album_name then album_name else PStr artist in
  let image_url := if negb (Py.truthy image_url) then fallback_or_logo else image_url in
  n <- Py.len large_asset_text ;;
  let large_asset_text :=
    if Nat.ltb n 2 then PStr ("Album: " ++ format large_asset_text)
    else large_asset_text in
  ret (image_url, large_asset_text).

(** [get_album_art_url(artist, track_name)] *)
Definition get_album_art_url (api : lastfm) (artist track_name : string)
  : res (pyval * pyval) :=
  try_except (album_art_url_body api artist track_name)
             (fun _ => ret (fallback_or_logo, PStr artist)).

(** [get_album_art(track_position, artist)].  The dump of the playlist and
    the two [os.path] calls are the player's and the file system's:
    [album_folder] is their outcome, the base name of the directory of the
    playing file, or the exception they end in. *)
Definition get_album_art (album_folder : res string) (artist : string)
  : res (pyval * pyval) :=
  album_name <- album_folder ;;
  let album_key :=
    if existsb (String.eqb album_name) (album_exceptions cfg)
    then artist ++ " - " ++ album_name else album_name in
  let '(large_asset_key, large_asset_text) :=
    match Py.lookup album_key (album_asset_keys cfg) with
    | Some key => (key, album_name)
    | None =>
        (PStr (default_large_key cfg),
         if String.eqb (default_large_text cfg) "winamp version"
         then "Winamp v" ++ winamp_version cfg
         else if String.eqb (default_large_text cfg) "album name" then album_name
         else default_large_text cfg)
    end in
  let large_asset_text :=
    if Nat.ltb (String.length large_asset_text) 2
    then "Album: " ++ large_asset_text else large_asset_text in
  ret (large_asset_key, PStr large_asset_text).

End Resolver.

(** ** The update driver and the poll loop *)

(** Modelled from the spec: the enumeration [PlayingStatus] of the [winamp]
    module, which is imported by [main.py] and not part of it; the spec gives
    its values as [Playing], [Paused] and [Stopped]. *)
Inductive PlayingStatus : Type := Playing | Paused | Stopped.

Definition status_eqb (a b : PlayingStatus) : bool :=
  match a, b with
  | Playing, Playing | Paused, Paused | Stopped, Stopped => true
  | _, _ => false
  end.

(** The two module-level variables the loop assigns. *)
Record session : Type := {
  previous_track : string;
  cleared : bool
}.

(** The start of the script: [previous_track = ""], [cleared = False]. *)
Definition initial : session := {| previous_track := ""; cleared := false |}.

(** The calls made on the presence client. *)
Inductive event : Type :=
| RpcClear
| RpcUpdate (details state : string) (start : Z)
            (large_image : pyval) (small_image : string)
            (large_text : pyval) (small_text : string).

(** What the collaborators answer during one tick: the player
    ([get_playing_status], [get_track_title], [get_playlist_position],
    the second component of [get_track_status], in milliseconds), the clock
    ([time.time()]), the web service, and the playlist on disk. *)
Record observation : Type := {
  playing_status : PlayingStatus;
  track_title : string;
  playlist_position : Z;
  track_status_ms : Z;
  time_now : Q;
  service : lastfm;
  album_folder : res string
}.

(** [w.get_track_status()[1] / 1000] *)
Definition seconds_of_ms (ms : Z) : Q := (inject_Z ms / inject_Z 1000)%Q.

(** [if pos >= 100000: pos = 0] *)
Definition fix_position (pos : Q) : Q :=
  if Qle_bool (inject_Z 100000) pos then 0%Q else pos.

(** [int(x)] of a float: truncation towards zero. *)
Definition int_of_float (x : Q) : Z := Z.quot (Qnum x) (Zpos (Qden x)).

(** [int(start)], from the reported milliseconds and the clock. *)
Definition start_timestamp (ms : Z) (now : Q) : Z :=
  let pos := fix_position (seconds_of_ms ms) in
  int_of_float (now - pos)%Q.

(** [trackinfo_raw.split(" - ")[:-1]] *)
Definition trackinfo_of (trackinfo_raw : string) : list string :=
  all_but_last (split_dash trackinfo_raw).

(** [trackinfo[0].strip(f"{track_pos + 1}. ")] *)
Definition artist_of (track_pos : Z) (first : string) : string :=
  strip_chars (str_of_int (track_pos + 1) ++ ". ") first.

(** [" - ".join(trackinfo[1:])], then the prefix for a short name. *)
Definition track_name_of (rest : list string) : string :=
  let track_name := join_dash rest in
  if Nat.ltb (String.length track_name) 2
  then "Track: " ++ track_name else track_name.

(** The outcome of a statement that assigns the module-level variables and
    calls the presence client: how it ended, the variables then, and the
    calls made. *)
Definition outcome : Type := (res unit * session * list event)%type.

Section Driver.

Variable repr : pyval -> string.
Variable cfg : settings.

(** The choice between the URL-based resolver, the custom assets and the
    logo. *)
Definition large_asset (o : observation) (artist track_name : string)
  : res (pyval * pyval) :=
  if use_direct_urls cfg then
    get_album_art_url repr cfg (service o) artist track_name
  else if custom_assets cfg then
    get_album_art cfg (album_folder o) artist
  else ret (PStr "logo", PStr ("Winamp v" ++ winamp_version cfg)).

(** [update_rpc()] *)
Definition update_rpc (o : observation) (st : session) : outcome :=
  let trackinfo_raw := track_title o in
  if negb (String.eqb trackinfo_raw (previous_track st)) then
    let st := {| previous_track := trackinfo_raw; cleared := cleared st |} in
    let trackinfo := trackinfo_of trackinfo_raw in
    let track_pos := playlist_position o in
    match trackinfo with
    | [] => (raise IndexError, st, [])
    | first :: rest =>
        let artist := artist_of track_pos first in
        let track_name := track_name_of rest in
        let start := start_timestamp (track_status_ms o) (time_now o) in
        match large_asset o artist track_name with
        | inl e => (raise e, st, [])
        | inr (large_asset_key, large_asset_text) =>
            (ret tt,
             {| previous_track := trackinfo_raw; cleared := false |},
             [RpcUpdate track_name ("by " ++ artist) start
                        large_asset_key (small_asset_key cfg)
                        large_asset_text (small_asset_text cfg)])
        end
    end
  else (ret tt, st, []).

(** One pass through the body of [while True], the [time.sleep(1)] apart. *)
Definition tick (o : observation) (st : session) : outcome :=
  let status := playing_status o in
  if status_eqb status Paused || (status_eqb status Stopped && negb (cleared st))
  then (ret tt, {| previous_track := ""; cleared := true |}, [RpcClear])
  else if status_eqb status Playing then update_rpc o st
  else (ret tt, st, []).

(** The loop over the observations of successive ticks; an exception leaves
    the loop, and the script. *)
Fixpoint run (obs : list observation) (st : session) : outcome :=
  match obs with
  | [] => (ret tt, st, [])
  | o :: more =>
      match tick o st with
      | (inl e, st', evs) => (raise e, st', evs)
      | (inr _, st', evs) =>
          let '(r, st'', evs') := run more st' in (r, st'', (evs ++ evs')%list)
      end
  end.

(** The sessions in which the successive ticks start. *)
Fixpoint loop_heads (obs : list observation) (st : session) : list session :=
  st ::
  match obs with
  | [] => []
  | o :: more =>
      match tick o st with
      | (inl _, _, _) => []
      | (inr _, st', _) => loop_heads more st'
      end
  end.

End Driver.

Definition is_update (e : event) : bool :=
  match e with RpcUpdate _ _ _ _ _ _ _ => true | RpcClear => false end.

Definition is_clear (e : event) : bool :=
  match e with RpcClear => true | _ => false end.

(** The number of presence pushes, and of clears, among the calls made. *)
Definition pushes (evs : list event) : nat := List.length (filter is_update evs).
Definition clears (evs : list event) : nat := List.length (filter is_clear evs).

(** The session invariant: a cleared presence has no previous track. *)
Definition session_ok (st : session) : Prop :=
  cleared st = true -> previous_track st = "".

(** ** Predicates and reference definitions used by the statements *)

(** [s] has no line feed. *)
Definition single_line (s : string) : bool := negb (mem newline s).

(** The pattern [o .*? c] matches nowhere in [s]. *)
Fixpoint no_group (o c : ascii) (s : string) : bool :=
  match s with
  | EmptyString => true
  | String d rest => negb (Ascii.eqb d o && Re.closes c rest) && no_group o c rest
  end.

Definition starts_with_space (s : string) : bool :=
  match s with
  | String d _ => is_space d
  | EmptyString => false
  end.

(** Every whitespace character of [s] is a space that no whitespace
    follows. *)
Fixpoint tidy (s : string) : bool :=
  match s with
  | EmptyString => true
  | String d rest =>
      (if is_space d then Ascii.eqb d " " && negb (starts_with_space rest) else true)
      && tidy rest
  end.

(** [t] is [s] with characters left out and whitespace turned into spaces,
    which is all the steps of [clean_string] do. *)
Inductive thinned : string -> string -> Prop :=
| thinned_nil : thinned EmptyString EmptyString
| thinned_drop d s t : thinned s t -> thinned (String d s) t
| thinned_keep d s t : thinned s t -> thinned (String d s) (String d t)
| thinned_space d s t :
    is_space d = true -> thinned s t -> thinned (String d s) (String " " t).

(** [s.endswith(suffix)] *)
Fixpoint ends_with (suffix s : string) : bool :=
  String.eqb s suffix ||
  match s with
  | EmptyString => false
  | String _ rest => ends_with suffix rest
  end.

(** [" - "] does not occur in [s]. *)
Definition no_dash (s : string) : bool := negb (contains dash s).

(** An image entry of a Last.FM document as a pair (size label, url), and
    the list of entries as the decoded JSON array. *)
Definition image_of_entry (e : string * string) : pyval := image (fst e) (snd e).

Definition images_of (entries : list (string * string)) : pyval :=
  PList (map image_of_entry entries).

Definition has_url (e : string * string) : bool := negb (String.eqb (snd e) "").

(** The url of the first entry with the label [label] and a url. *)
Definition labelled (label : string) (entries : list (string * string))
  : option string :=
  option_map snd (find (fun e => String.eqb (fst e) label && has_url e) entries).

(** Image-set resolution in the words of the specification: by priority
    extralarge, large, medium, small; else the first entry with a non-empty
    url; else none. *)
Definition image_set_resolution (entries : list (string * string))
  : option string :=
  match labelled "extralarge" entries with
  | Some url => Some url
  | None =>
  match labelled "large" entries with
  | Some url => Some url
  | None =>
  match labelled "medium" entries with
  | Some url => Some url
  | None =>
  match labelled "small" entries with
  | Some url => Some url
  | None => option_map snd (find has_url entries)
  end end end end.

Definition py_of_option (u : option string) : pyval :=
  match u with
  | Some url => PStr url
  | None => PNone
  end.

(** [text] with the prefix ["Album: "] when it has fewer than two
    characters. *)
Definition album_padded (text : string) : string :=
  if Nat.ltb (String.length text) 2 then "Album: " ++ text else text.

(** A service that cannot be reached. *)
Definition unreachable : lastfm := {|
  track_getInfo := fun _ _ => raise (External "ConnectionError");
  artist_getTopAlbums := fun _ => raise (External "ConnectionError")
|}.

(** The settings the script writes when it finds none, with direct urls
    left on; the version is the player's. *)
Definition default_settings : settings := {|
  use_direct_urls := true;
  custom_assets := false;
  fallback_image_url := "";
  default_large_key := "logo";
  default_large_text := "winamp version";
  small_asset_key := "playbutton";
  small_asset_text := "Playing";
  winamp_version := "5.666";
  album_exceptions := [];
  album_asset_keys := []
|}.

(** A tick with the given status and title, the service unreachable. *)
Definition observe (status : PlayingStatus) (title : string) (index ms : Z)
  : observation := {|
  playing_status := status;
  track_title := title;
  playlist_position := index;
  track_status_ms := ms;
  time_now := inject_Z 1700000000;
  service := unreachable;
  album_folder := raise (External "FileNotFoundError")
|}.

(** [str] of a value that is not a string, for the examples. *)
Definition no_repr (v : pyval) : string := "?".

(** The session a clear leaves. *)
Definition cleared_session : session := {| previous_track := ""; cleared := true |}.

(** A tick that plays the second track of the playlist. *)
Definition playing_2pac : observation :=
  observe Playing "2. 2Pac - Changes - Winamp" 1 0.

(** A service whose track document gives a number where the album title is
    expected. *)
Definition numeric_title : lastfm := {|
  track_getInfo := fun _ _ =>
    ret (PDict [("track",
                 PDict [("album",
                         PDict [("title", PInt 5);
                                ("image", PList [image "large" "http://img/5.png"])])])]);
  artist_getTopAlbums := fun _ => raise (External "ConnectionError")
|}.

(** [s] starts with a character of the set [p]. *)
Definition starts_in (p : ascii -> bool) (s : string) : bool :=
  match s with
  | String d _ => p d
  | EmptyString => false
  end.

(** ** Further definitions: the ends of a string, the playlist, the start of
    the script *)

(** Every character of [s] is in the set [p]. *)
Fixpoint all_in (p : ascii -> bool) (s : string) : bool :=
  match s with
  | EmptyString => true
  | String d rest => p d && all_in p rest
  end.

(** [s] ends with a character of the set [p]. *)
Fixpoint ends_in (p : ascii -> bool) (s : string) : bool :=
  match s with
  | EmptyString => false
  | String d EmptyString => p d
  | String _ rest => ends_in p rest
  end.

(** The set of characters [update_rpc] hands to [strip] for the track at
    [track_pos]: the characters of ["{track_pos + 1}. "]. *)
Definition prefix_chars (track_pos : Z) (c : ascii) : bool :=
  mem c (str_of_int (track_pos + 1) ++ ". ").

(** Settings with the direct urls and the custom assets off. *)
Definition logo_settings : settings := {|
  use_direct_urls := false;
  custom_assets := false;
  fallback_image_url := "";
  default_large_key := "logo";
  default_large_text := "winamp version";
  small_asset_key := "playbutton";
  small_asset_text := "Playing";
  winamp_version := "5.666";
  album_exceptions := [];
  album_asset_keys := []
|}.

(** [isinstance(v, dict)] *)
Definition is_dict (v : pyval) : bool :=
  match v with
  | PDict _ => true
  | _ => false
  end.

(** The document of [artist.getTopAlbums] with [albums] under
    ["topalbums"]["album"]. *)
Definition top_albums_doc (albums : pyval) : pyval :=
  PDict [("topalbums", PDict [("album", albums)])].

(** The document of [track.getInfo] with [album] under
    ["track"]["album"]. *)
Definition track_doc (album : pyval) : pyval :=
  PDict [("track", PDict [("album", album)])].

(** [d.get(key, default)] on the bindings of a dict. *)
Definition get_or (d : list (string * pyval)) (key : string) (default : pyval)
  : pyval :=
  match Py.lookup key d with
  | Some x => x
  | None => default
  end.

(** An album as the artist tier gets it. *)
Definition best_hits : list (string * pyval) :=
  [("name", PStr "Best Hits"); ("image", PList [image "small" "http://img/s.png"])].

(** A service whose track document has an album title and no image, and
    whose top album is [best_hits]. *)
Definition title_without_image : lastfm := {|
  track_getInfo := fun _ _ => ret (track_doc (PDict [("title", PStr "Discovery")]));
  artist_getTopAlbums := fun _ => ret (top_albums_doc (PList [PDict best_hits]))
|}.

(** A service whose track document has an album with a title and an
    image. *)
Definition title_and_image : lastfm := {|
  track_getInfo := fun _ _ =>
    ret (track_doc (PDict [("title", PStr "Discovery");
                           ("image", PList [image "large" "http://img/d.png"])]));
  artist_getTopAlbums := fun _ => raise (External "Timeout")
|}.

(** The key under which [get_album_art] looks the album up. *)
Definition album_key (cfg : settings) (album artist : string) : string :=
  if existsb (String.eqb album) (album_exceptions cfg)
  then artist ++ " - " ++ album else album.

(** [l[i]] for a list: a negative index counts from the end. *)
Definition py_index {A} (l : list A) (i : Z) : res A :=
  let n := Z.of_nat (List.length l) in
  let k := if (i <? 0)%Z then (i + n)%Z else i in
  if (0 <=? k)%Z && (k <? n)%Z then
    match nth_error l (Z.to_nat k) with
    | Some x => ret x
    | None => raise IndexError
    end
  else raise IndexError.

Section Playlist.

(** [os.path.dirname] and [os.path.basename], which are the platform's. *)
Variable dirname basename : string -> string.

(** The first four lines of the body of [get_album_art]: the playlist is
    dumped and read ([tracklist_paths], or the exception that ends in), the
    entry at [track_position] is taken and the base name of its directory is
    the album. *)
Definition album_folder_of (tracklist_paths : res (list string))
           (track_position : Z) : res string :=
  paths <- tracklist_paths ;;
  path <- py_index paths track_position ;;
  ret (basename (dirname path)).

End Playlist.

(** The module-level statements between the functions and the loop: the
    settings are read, checked, and the tables of the custom assets loaded.
    The connection to the player and to the presence client is not
    modelled. *)
Module Startup.

(** What opening a file for reading gives: [FileNotFoundError], or the
    content (decoded, for a JSON file; split into lines, for the text
    file). *)
Inductive file (A : Type) : Type :=
| Missing
| Found (content : A).
Arguments Missing {A}.
Arguments Found {A} content.

Definition placeholder : string := "YOUR_LASTFM_API_KEY_HERE".

(** The settings the script writes, and goes on with, when [settings.json]
    is missing. *)
Definition written_defaults : pyval :=
  PDict [("_comment", PStr "Set use_direct_urls to true to fetch album art from Last.FM. Get your API key from https://www.last.fm/api/account/create");
         ("client_id", PStr "default");
         ("use_direct_urls", PBool true);
         ("lastfm_api_key", PStr placeholder);
         ("default_large_asset_key", PStr "logo");
         ("default_large_asset_text", PStr "winamp version");
         ("small_asset_key", PStr "playbutton");
         ("small_asset_text", PStr "Playing");
         ("custom_assets", PBool false);
         ("fallback_image_url", PStr "")].

(** The module-level variables once the loop starts; a table that no
    statement has assigned is [None]. *)
Record globals : Type := {
  client_id : pyval;
  use_direct_urls : pyval;
  lastfm_api_key : pyval;
  fallback_image_url : pyval;
  default_large_key : pyval;
  default_large_text : pyval;
  small_asset_key : pyval;
  small_asset_text : pyval;
  custom_assets : pyval;
  album_exceptions : option (list string);
  album_asset_keys : option pyval
}.

Definition load_settings (settings_file : file pyval) : pyval :=
  match settings_file with
  | Found settings => settings
  | Missing => written_defaults
  end.

Definition startup (settings_file : file pyval)
           (exceptions_file : file (list string)) (covers_file : file pyval)
  : res globals :=
  let settings := load_settings settings_file in
  client_id <- Py.getitem settings "client_id" ;;
  use_direct_urls <- Py.get settings "use_direct_urls" (PBool false) ;;
  lastfm_api_key <- Py.get settings "lastfm_api_key" (PStr "") ;;
  fallback_image_url <- Py.get settings "fallback_image_url" (PStr "") ;;
  default_large_key <- Py.getitem settings "default_large_asset_key" ;;
  default_large_text <- Py.getitem settings "default_large_asset_text" ;;
  small_asset_key <- Py.getitem settings "small_asset_key" ;;
  small_asset_text <- Py.getitem settings "small_asset_text" ;;
  custom_assets <- Py.getitem settings "custom_assets" ;;
  let client_id :=
    if Py.eq_str client_id "default" then PStr "507484022675603456" else client_id in
  let use_direct_urls :=
    if Py.truthy use_direct_urls
       && (negb (Py.truthy lastfm_api_key) || Py.eq_str lastfm_api_key placeholder)
    then PBool false else use_direct_urls in
  let '(custom_assets, album_exceptions, album_asset_keys) :=
    if Py.truthy custom_assets && negb (Py.truthy use_direct_urls) then
      let album_exceptions :=
        match exceptions_file with
        | Found lines => lines
        | Missing => []
        end in
      match covers_file with
      | Found table => (custom_assets, Some album_exceptions, Some table)
      | Missing => (PBool false, Some album_exceptions, None)
      end
    else (custom_assets, None, None) in
  ret {| client_id := client_id;
         use_direct_urls := use_direct_urls;
         lastfm_api_key := lastfm_api_key;
         fallback_image_url := fallback_image_url;
         default_large_key := default_large_key;
         default_large_text := default_large_text;
         small_asset_key := small_asset_key;
         small_asset_text := small_asset_text;
         custom_assets := custom_assets;
         album_exceptions := album_exceptions;
         album_asset_keys := album_asset_keys |}.

(** The statements from the first read of the settings to the check of the
    key, which call nothing outside the script: the reads, the built-in
    client id, the check.  No table has been assigned then. *)
Definition read_settings (settings : pyval) : res globals :=
  client_id <- Py.getitem settings "client_id" ;;
  use_direct_urls <- Py.get settings "use_direct_urls" (PBool false) ;;
  lastfm_api_key <- Py.get settings "lastfm_api_key" (PStr "") ;;
  fallback_image_url <- Py.get settings "fallback_image_url" (PStr "") ;;
  default_large_key <- Py.getitem settings "default_large_asset_key" ;;
  default_large_text <- Py.getitem settings "default_large_asset_text" ;;
  small_asset_key <- Py.getitem settings "small_asset_key" ;;
  small_asset_text <- Py.getitem settings "small_asset_text" ;;
  custom_assets <- Py.getitem settings "custom_assets" ;;
  let client_id :=
    if Py.eq_str client_id "default" then PStr "507484022675603456" else client_id in
  let use_direct_urls :=
    if Py.truthy use_direct_urls
       && (negb (Py.truthy lastfm_api_key) || Py.eq_str lastfm_api_key placeholder)
    then PBool false else use_direct_urls in
  ret {| client_id := client_id;
         use_direct_urls := use_direct_urls;
         lastfm_api_key := lastfm_api_key;
         fallback_image_url := fallback_image_url;
         default_large_key := default_large_key;
         default_large_text := default_large_text;
         small_asset_key := small_asset_key;
         small_asset_text := small_asset_text;
         custom_assets := custom_assets;
         album_exceptions := None;
         album_asset_keys := None |}.

(** The keys read with [settings[...]]. *)
Definition required_keys : list string :=
  ["client_id"; "default_large_asset_key"; "default_large_asset_text";
   "small_asset_key"; "small_asset_text"; "custom_assets"].

End Startup.


(** A settings file that turns the custom assets on and the direct urls
    off. *)
Definition custom_settings_doc : list (string * pyval) :=
  [("client_id", PStr "default");
   ("use_direct_urls", PBool false);
   ("default_large_asset_key", PStr "logo");
   ("default_large_asset_text", PStr "album name");
   ("small_asset_key", PStr "playbutton");
   ("small_asset_text", PStr "Playing");
   ("custom_assets", PBool true)].

(** The module-level variables [custom_settings_doc] leads to, with the
    table [table] and no exceptions file. *)
Definition custom_globals (table : pyval) : Startup.globals := {|
  Startup.client_id := PStr "507484022675603456";
  Startup.use_direct_urls := PBool false;
  Startup.lastfm_api_key := PStr "";
  Startup.fallback_image_url := PStr "";
  Startup.default_large_key := PStr "logo";
  Startup.default_large_text := PStr "album name";
  Startup.small_asset_key := PStr "playbutton";
  Startup.small_asset_text := PStr "Playing";
  Startup.custom_assets := PBool true;
  Startup.album_exceptions := Some [];
  Startup.album_asset_keys := Some table
|}.

(** ** The driver with calls that may raise *)

(** For each call [update_rpc] makes on the player and on the presence
    client, the exception it raises, or [None] when it returns: the value
    it returns is then the one of the [observation]. *)
Record faults : Type := {
  title_fault : option exn;
  position_fault : option exn;
  status_fault : option exn;
  update_fault : option exn
}.

(** Every call returns. *)
Definition no_faults : faults := {|
  title_fault := None;
  position_fault := None;
  status_fault := None;
  update_fault := None
|}.

Section FaultyDriver.

Variable repr : pyval -> string.
Variable cfg : settings.

(** [update_rpc()], statement by statement: [w.get_track_title()], the
    comparison and the assignment of [previous_track], the split,
    [w.get_playlist_position()], [trackinfo[0]], [w.get_track_status()],
    the artwork, [rpc.update(...)], the assignment of [cleared].  A call on
    the presence client that raises is among the calls made. *)
Definition update_rpc_faulty (f : faults) (o : observation) (st : session)
  : outcome :=
  match title_fault f with
  | Some e => (raise e, st, [])
  | None =>
  let trackinfo_raw := track_title o in
  if negb (String.eqb trackinfo_raw (previous_track st)) then
    let st := {| previous_track := trackinfo_raw; cleared := cleared st |} in
    let trackinfo := trackinfo_of trackinfo_raw in
    match position_fault f with
    | Some e => (raise e, st, [])
    | None =>
    let track_pos := playlist_position o in
    match trackinfo with
    | [] => (raise IndexError, st, [])
    | first :: rest =>
        let artist := artist_of track_pos first in
        let track_name := track_name_of rest in
        match status_fault f with
        | Some e => (raise e, st, [])
        | None =>
        let start := start_timestamp (track_status_ms o) (time_now o) in
        match large_asset repr cfg o artist track_name with
        | inl e => (raise e, st, [])
        | inr (large_asset_key, large_asset_text) =>
            let call :=
              RpcUpdate track_name ("by " ++ artist) start
                        large_asset_key (small_asset_key cfg)
                        large_asset_text (small_asset_text cfg) in
            match update_fault f with
            | Some e => (raise e, st, [call])
            | None =>
                (ret tt,
                 {| previous_track := trackinfo_raw; cleared := false |},
                 [call])
            end
        end
        end
    end
    end
  else (ret tt, st, [])
  end.

End FaultyDriver.

(** A player whose [get_track_status] fails. *)
Definition status_fails : faults := {|
  title_fault := None;
  position_fault := None;
  status_fault := Some (External "WinampError");
  update_fault := None
|}.

(** * Properties *)

(** ** The model on the inputs of the specification *)

Example split_three : split_dash "3. Artist - Song - Title - Player"
                      = ["3. Artist"; "Song"; "Title"; "Player"].
Proof. reflexivity. Qed.

Example split_none : split_dash "Winamp" = ["Winamp"].
Proof. reflexivity. Qed.

Example split_straddle : split_dash "x - - y" = ["x"; "- y"].
Proof. reflexivity. Qed.

Example strip_set : strip_chars (str_of_int 2%Z ++ ". ") "2. 2Pac" = "Pac".
Proof. reflexivity. Qed.

Example str_of_int_ex : (str_of_int 0%Z, str_of_int 12%Z, str_of_int (-7)%Z) = ("0", "12", "-7").
Proof. reflexivity. Qed.

Example clean_remix : clean_string "Song (Remix) [Live]" = "Song".
Proof. reflexivity. Qed.

Example clean_spaces : clean_string "A   B" = "A B".
Proof. reflexivity. Qed.

Example clean_nested : clean_string "a (b (c) d) e" = "a d) e".
Proof. reflexivity. Qed.

Example clean_line_feed :
  clean_string (String "(" (String newline ")")) = "( )"
  /\ clean_string "( )" = "".
Proof. split; reflexivity. Qed.

Example largest_ex :
  get_largest_image (PList [image "large" "A"; image "extralarge" "B"]) = ret (PStr "B").
Proof. reflexivity. Qed.

Example largest_not_iterable : get_largest_image (PInt 5) = raise TypeError.
Proof. reflexivity. Qed.

(** ** The playback position *)

Lemma seconds_at_least (ms : Z) :
  Qle_bool (inject_Z 100000) (seconds_of_ms ms) = (100000000 <=? ms)%Z.
Proof.
  unfold Qle_bool, seconds_of_ms; cbn.
  destruct (Z.leb_spec 100000000 ms); [apply Z.leb_le | apply Z.leb_gt]; lia.
Qed.

Lemma int_of_float_minus_0 (now : Q) : int_of_float (now - 0)%Q = int_of_float now.
Proof.
  unfold int_of_float; cbn.
  now rewrite Z.mul_1_r, Z.add_0_r, Pos.mul_1_r.
Qed.

Lemma position_below_kept (ms : Z) :
  (ms < 100000000)%Z -> fix_position (seconds_of_ms ms) = seconds_of_ms ms.
Proof.
  intros H. unfold fix_position. rewrite seconds_at_least.
  now apply Z.leb_gt in H; rewrite H.
Qed.

(** C1, as stated, fails: a reported position of 4000000 ms is 4000 s, below
    the threshold of 100000 s, so it is kept and the start is 4000 s before
    the clock. *)
Lemma C1_position_4000000_ms_kept :
  (fix_position (seconds_of_ms 4000000) == inject_Z 4000)%Q
  /\ ~ (fix_position (seconds_of_ms 4000000) == 0)%Q
  /\ start_timestamp 4000000 (inject_Z 1700000000) = 1699996000%Z.
Proof.
  repeat split; try reflexivity.
  intros H; vm_compute in H; discriminate.
Qed.

(** C1, amended: a reported position of at least 100000000 ms, that is
    100000 s, becomes 0 s before the start is computed, so the start is the
    clock itself. *)
Theorem C1_sentinel_position_reset (ms : Z) (now : Q) :
  (100000000 <= ms)%Z ->
  fix_position (seconds_of_ms ms) = 0%Q
  /\ start_timestamp ms now = int_of_float now.
Proof.
  intros H.
  assert (E : fix_position (seconds_of_ms ms) = 0%Q).
  { unfold fix_position. rewrite seconds_at_least.
    now apply Z.leb_le in H; rewrite H. }
  split; [exact E|].
  unfold start_timestamp. rewrite E. apply int_of_float_minus_0.
Qed.

Lemma C1_sentinel_position_reset_witness :
  fix_position (seconds_of_ms 4294967295) = 0%Q
  /\ start_timestamp 4294967295 (inject_Z 1700000000) = int_of_float (inject_Z 1700000000).
Proof.
  apply (C1_sentinel_position_reset 4294967295 (inject_Z 1700000000)). lia.
Defined.

(** ** The artist prefix *)

(** C2 fails on the code: [strip] takes its argument as a set of characters
    and removes them from both ends, so with the track at index 1 of the
    playlist the artist of "2. 2Pac - Changes - Winamp" comes out as "Pac",
    and a trailing digit, dot or space goes the same way. *)
Theorem C2_strip_takes_artist_characters :
  artist_of 1 "2. 2Pac" = "Pac"
  /\ artist_of 11 "12. Blink 182" = "Blink 18"
  /\ update_rpc no_repr default_settings
       (observe Playing "2. 2Pac - Changes - Winamp" 1 0) initial
     = (ret tt,
        {| previous_track := "2. 2Pac - Changes - Winamp"; cleared := false |},
        [RpcUpdate "Changes" "by Pac" 1700000000
                   (PStr "logo") "playbutton" (PStr "Pac") "Playing"]).
Proof. repeat split; reflexivity. Qed.

(** ** Titles without a delimiter *)

Lemma push_char_not_nil (c : ascii) (segs : list string) : push_char c segs <> [].
Proof. destruct segs; discriminate. Qed.

Lemma split_dash_at_dash (s : string) :
  split_dash (dash ++ s) = EmptyString :: split_dash s.
Proof. reflexivity. Qed.

Lemma split_dash_at_char (c : ascii) (s : string) :
  starts_with dash (String c s) = false ->
  split_dash (String c s) = push_char c (split_dash s).
Proof.
  intros E.
  change (split_dash (String c s))
    with (if starts_with dash (String c s)
          then match s with
               | String _ (String _ after) => EmptyString :: split_dash after
               | _ => push_char c (split_dash s)
               end
          else push_char c (split_dash s)).
  now rewrite E.
Qed.

Lemma starts_with_dash_inv (s : string) :
  starts_with dash s = true -> exists after, s = dash ++ after.
Proof.
  unfold dash.
  destruct s as [|c [|c2 [|c3 after]]]; cbn [starts_with]; intros E;
    rewrite ?andb_false_r in E; try discriminate.
  apply andb_prop in E as [E1 E]. apply andb_prop in E as [E2 E].
  apply andb_prop in E as [E3 _].
  apply Ascii.eqb_eq in E1, E2, E3. subst. now exists after.
Qed.

(** Induction along the scan of [split_dash]. *)
Lemma split_dash_scan (P : string -> Prop) :
  P EmptyString ->
  (forall s, P s -> P (dash ++ s)) ->
  (forall c s, starts_with dash (String c s) = false -> P s -> P (String c s)) ->
  forall s, P s.
Proof.
  intros P0 Pd Pc s.
  assert (G : forall n s, String.length s <= n -> P s).
  { clear s. induction n as [|n IH]; intros [|c s] L; cbn in L; try exact P0.
    { exfalso; lia. }
    destruct (starts_with dash (String c s)) eqn:E.
    - destruct (starts_with_dash_inv _ E) as [after Eq].
      rewrite Eq. injection Eq as _ ->.
      apply Pd, IH. cbn in L. lia.
    - apply Pc; [exact E|]. apply IH. lia. }
  exact (G (String.length s) s (le_n _)).
Qed.

Lemma split_dash_not_nil (s : string) : split_dash s <> [].
Proof.
  induction s using split_dash_scan.
  - discriminate.
  - rewrite split_dash_at_dash. discriminate.
  - rewrite split_dash_at_char by assumption. apply push_char_not_nil.
Qed.

Lemma trackinfo_of_short (raw : string) :
  List.length (split_dash raw) < 2 -> trackinfo_of raw = [].
Proof.
  unfold trackinfo_of, all_but_last.
  pose proof (split_dash_not_nil raw) as N.
  destruct (split_dash raw) as [|a [|b l]]; cbn; intros; [easy | easy | lia].
Qed.

Section DriverFacts.

Variable repr : pyval -> string.
Variable cfg : settings.

(** C3, as stated, fails: the title "Winamp" has one segment and the driver
    ends in [IndexError], the out-of-bounds access to [trackinfo[0]]. *)
Lemma C3_single_segment_index_error :
  List.length (split_dash "Winamp") < 2
  /\ update_rpc no_repr default_settings (observe Playing "Winamp" 0 0) initial
     = (raise IndexError, {| previous_track := "Winamp"; cleared := false |}, []).
Proof. split; [cbn; lia | reflexivity]. Qed.

(** C3, amended: when the title has fewer than 2 segments and differs from
    the previous one, the driver raises [IndexError] at [trackinfo[0]], with
    the title already stored as previous track, [cleared] as it was and no
    call made on the presence client. *)
Theorem C3_short_title_raises_index_error (o : observation) (st : session) :
  List.length (split_dash (track_title o)) < 2 ->
  track_title o <> previous_track st ->
  update_rpc repr cfg o st
  = (raise IndexError,
     {| previous_track := track_title o; cleared := cleared st |}, []).
Proof.
  intros Hshort Hnew. unfold update_rpc.
  apply String.eqb_neq in Hnew. rewrite Hnew. cbn.
  now rewrite (trackinfo_of_short _ Hshort).
Qed.

End DriverFacts.

Lemma C3_short_title_raises_index_error_witness :
  update_rpc no_repr default_settings (observe Playing "Winamp" 0 0) initial
  = (raise IndexError, {| previous_track := "Winamp"; cleared := false |}, []).
Proof.
  apply (C3_short_title_raises_index_error no_repr default_settings
           (observe Playing "Winamp" 0 0) initial).
  - cbn; lia.
  - cbn; discriminate.
Defined.

(** ** The poll loop *)

Section LoopFacts.

Variable repr : pyval -> string.
Variable cfg : settings.

Lemma update_rpc_unchanged (o : observation) (st : session) :
  track_title o = previous_track st ->
  update_rpc repr cfg o st = (ret tt, st, []).
Proof.
  intros E. unfold update_rpc. now rewrite E, String.eqb_refl.
Qed.

(** A call of the driver that returns makes no clear, at most one push, and
    leaves the title as previous track. *)
Lemma update_rpc_returns (o : observation) (st st' : session) (evs : list event) :
  update_rpc repr cfg o st = (ret tt, st', evs) ->
  previous_track st' = track_title o
  /\ clears evs = 0
  /\ (track_title o <> previous_track st -> cleared st' = false /\ pushes evs = 1)
  /\ (track_title o = previous_track st -> st' = st /\ evs = []).
Proof.
  unfold update_rpc.
  destruct (String.eqb_spec (track_title o) (previous_track st)) as [E|N]; cbn.
  - intros [= <- <-]. repeat split; try easy.
  - destruct (trackinfo_of (track_title o)) as [|first rest]; [discriminate|].
    destruct (large_asset repr cfg o _ _) as [e|[key text]]; [discriminate|].
    intros [= <- <-]. repeat split; try easy.
Qed.

Lemma update_rpc_never_clears (o : observation) (st : session) :
  clears (snd (update_rpc repr cfg o st)) = 0.
Proof.
  unfold update_rpc.
  destruct (negb _); [|reflexivity].
  destruct (trackinfo_of _); [reflexivity|].
  now destruct (large_asset _ _ _ _ _) as [e|[key text]].
Qed.

(** C4: a Paused tick clears the presence, empties the previous track and
    sets [cleared], whatever [cleared] was; a Stopped tick does so exactly
    when [cleared] is false and otherwise does nothing; a Playing tick makes
    no clear.  After a Playing tick, two Paused ticks clear twice. *)
Theorem C4_clear_policy (o : observation) (st : session) :
  (playing_status o = Paused ->
     tick repr cfg o st = (ret tt, cleared_session, [RpcClear]))
  /\ (playing_status o = Stopped ->
        tick repr cfg o st
        = if cleared st then (ret tt, st, [])
          else (ret tt, cleared_session, [RpcClear]))
  /\ (playing_status o = Playing ->
        tick repr cfg o st = update_rpc repr cfg o st
        /\ clears (snd (tick repr cfg o st)) = 0)
  /\ (forall (p1 p2 : observation) (st1 : session) (evs1 : list event),
        playing_status o = Playing ->
        playing_status p1 = Paused -> playing_status p2 = Paused ->
        tick repr cfg o st = (ret tt, st1, evs1) ->
        run repr cfg [o; p1; p2] st
        = (ret tt, cleared_session, (evs1 ++ [RpcClear; RpcClear])%list)
        /\ clears (evs1 ++ [RpcClear; RpcClear]) = 2).
Proof.
  split; [|split; [|split]].
  - intros E. unfold tick. now rewrite E.
  - intros E. unfold tick. rewrite E. cbn. now destruct (cleared st).
  - intros E. split.
    + unfold tick. now rewrite E.
    + unfold tick. rewrite E. cbn. apply update_rpc_never_clears.
  - intros p1 p2 st1 evs1 E E1 E2 T. split.
    + cbn. rewrite T. unfold tick. rewrite E1, E2. reflexivity.
    + unfold tick in T. rewrite E in T. cbn in T.
      apply update_rpc_returns in T as (_ & C & _).
      unfold clears in *. rewrite filter_app, length_app, C. reflexivity.
Qed.

End LoopFacts.

Lemma C4_clear_policy_witness :
  tick no_repr default_settings (observe Paused "" 0 0) cleared_session
  = (ret tt, cleared_session, [RpcClear])
  /\ tick no_repr default_settings (observe Stopped "" 0 0) cleared_session
     = (ret tt, cleared_session, [])
  /\ clears (snd (tick no_repr default_settings playing_2pac initial)) = 0
  /\ clears (snd (run no_repr default_settings
                    [playing_2pac; observe Paused "" 0 0; observe Paused "" 0 0]
                    initial)) = 2.
Proof.
  split; [|split; [|split]].
  - apply (proj1 (C4_clear_policy no_repr default_settings
                    (observe Paused "" 0 0) cleared_session)).
    reflexivity.
  - apply (proj1 (proj2 (C4_clear_policy no_repr default_settings
                           (observe Stopped "" 0 0) cleared_session))).
    reflexivity.
  - apply (proj1 (proj2 (proj2 (C4_clear_policy no_repr default_settings
                                  playing_2pac initial)))).
    reflexivity.
  - destruct (proj2 (proj2 (proj2 (C4_clear_policy no_repr default_settings
                                     playing_2pac initial)))
                (observe Paused "" 0 0) (observe Paused "" 0 0)
                _ _ eq_refl eq_refl eq_refl eq_refl) as [R C].
    rewrite R. exact C.
Defined.

Section SessionFacts.

Variable repr : pyval -> string.
Variable cfg : settings.

(** Whatever way a call of the driver ends, the title it read is the
    previous track afterwards. *)
Lemma update_rpc_stores (o : observation) (st st' : session)
      (r : res unit) (evs : list event) :
  update_rpc repr cfg o st = (r, st', evs) -> previous_track st' = track_title o.
Proof.
  unfold update_rpc.
  destruct (String.eqb_spec (track_title o) (previous_track st)) as [E|N]; cbn.
  - now intros [= _ <- _].
  - destruct (trackinfo_of (track_title o)) as [|first rest]; [now intros [= _ <- _]|].
    destruct (large_asset repr cfg o _ _) as [e|[key text]]; now intros [= _ <- _].
Qed.

(** C7: when the title read from the player equals the previous one the
    driver returns without a push and with the session as it was; so of two
    successive calls that read the same title the second pushes nothing and
    changes nothing, and when the first is a track change that returns, the
    two calls together push exactly once. *)
Theorem C7_unchanged_track_no_op (o o' : observation) (st : session) :
  (track_title o = previous_track st ->
     update_rpc repr cfg o st = (ret tt, st, []))
  /\ (forall (r : res unit) (st1 : session) (evs1 : list event),
        track_title o' = track_title o ->
        update_rpc repr cfg o st = (r, st1, evs1) ->
        update_rpc repr cfg o' st1 = (ret tt, st1, [])
        /\ (r = ret tt -> track_title o <> previous_track st ->
              pushes (evs1 ++ snd (update_rpc repr cfg o' st1)) = 1)).
Proof.
  split; [apply update_rpc_unchanged|].
  intros r st1 evs1 Same First.
  assert (Second : update_rpc repr cfg o' st1 = (ret tt, st1, [])).
  { apply update_rpc_unchanged. rewrite Same.
    symmetry. exact (update_rpc_stores _ _ _ _ _ First). }
  split; [exact Second|].
  intros -> N. rewrite Second. cbn. rewrite app_nil_r.
  apply update_rpc_returns in First as (_ & _ & Changed & _).
  now apply Changed.
Qed.

Lemma tick_preserves_session_ok (o : observation) (st st' : session)
      (evs : list event) :
  session_ok st -> tick repr cfg o st = (ret tt, st', evs) -> session_ok st'.
Proof.
  intros Inv. unfold tick.
  destruct (_ || _).
  - intros [= <- <-]. now intros _.
  - destruct (status_eqb _ Playing).
    + intros U. apply update_rpc_returns in U as (_ & _ & Changed & Same).
      destruct (String.eqb_spec (track_title o) (previous_track st)) as [E|N].
      * now destruct (Same E) as [-> _].
      * destruct (Changed N) as [C _]. intros Cl. congruence.
    + now intros [= <- <-].
Qed.

Lemma loop_heads_session_ok (obs : list observation) :
  forall st, session_ok st -> Forall session_ok (loop_heads repr cfg obs st).
Proof.
  induction obs as [|o more IH]; intros st Inv; cbn.
  - now constructor.
  - constructor; [exact Inv|].
    destruct (tick repr cfg o st) as [[[e|[]] st'] evs] eqn:T; [constructor|].
    apply IH. exact (tick_preserves_session_ok o st st' evs Inv T).
Qed.

(** C10, amended: a tick that starts in a session where [cleared] implies
    an empty previous track and that returns, ends in such a session; a tick
    that raises ends the loop, so every tick of the loop, from the start of
    the script on, starts in such a session. *)
Theorem C10_cleared_implies_no_previous_track :
  (forall (o : observation) (st st' : session) (evs : list event),
      session_ok st -> tick repr cfg o st = (ret tt, st', evs) -> session_ok st')
  /\ (forall obs : list observation,
        Forall session_ok (loop_heads repr cfg obs initial)).
Proof.
  split; [exact tick_preserves_session_ok|].
  intros obs. apply loop_heads_session_ok. intros C. discriminate C.
Qed.

End SessionFacts.

(** C10, as stated, fails: after a pause the presence is cleared; a Playing
    tick that then reads the title "Winamp" stores it as previous track and
    raises [IndexError] at [trackinfo[0]], before [cleared] is set to
    [False], so the tick ends with [cleared] true and a previous track that
    is not empty. *)
Lemma C10_raising_tick_leaves_cleared_with_a_track :
  session_ok cleared_session
  /\ tick no_repr default_settings (observe Playing "Winamp" 0 0) cleared_session
     = (raise IndexError, {| previous_track := "Winamp"; cleared := true |}, [])
  /\ ~ session_ok {| previous_track := "Winamp"; cleared := true |}
  /\ run no_repr default_settings
         [observe Paused "" 0 0; observe Playing "Winamp" 0 0] initial
     = (raise IndexError, {| previous_track := "Winamp"; cleared := true |},
        [RpcClear]).
Proof.
  split; [now intros _|]. split; [reflexivity|]. split; [|reflexivity].
  intros Inv. specialize (Inv eq_refl). discriminate Inv.
Qed.

Lemma C7_unchanged_track_no_op_witness :
  update_rpc no_repr default_settings playing_2pac
    {| previous_track := "2. 2Pac - Changes - Winamp"; cleared := false |}
  = (ret tt, {| previous_track := "2. 2Pac - Changes - Winamp"; cleared := false |}, [])
  /\ pushes (snd (update_rpc no_repr default_settings playing_2pac initial)
             ++ snd (update_rpc no_repr default_settings playing_2pac
                       {| previous_track := "2. 2Pac - Changes - Winamp";
                          cleared := false |})) = 1.
Proof.
  split.
  - apply (proj1 (C7_unchanged_track_no_op no_repr default_settings
                    playing_2pac playing_2pac _)).
    reflexivity.
  - destruct (proj2 (C7_unchanged_track_no_op no_repr default_settings
                       playing_2pac playing_2pac initial)
                (ret tt)
                {| previous_track := "2. 2Pac - Changes - Winamp"; cleared := false |}
                [RpcUpdate "Changes" "by Pac" 1700000000
                           (PStr "logo") "playbutton" (PStr "Pac") "Playing"]
                eq_refl eq_refl) as [_ Once].
    apply Once; [reflexivity | cbn; discriminate].
Defined.

Lemma C10_cleared_implies_no_previous_track_witness :
  session_ok cleared_session
  /\ session_ok {| previous_track := "2. 2Pac - Changes - Winamp"; cleared := false |}.
Proof.
  assert (Inv : session_ok cleared_session) by (intros _; reflexivity).
  split; [exact Inv|].
  apply (proj1 (C10_cleared_implies_no_previous_track no_repr default_settings)
           playing_2pac cleared_session _
           [RpcUpdate "Changes" "by Pac" 1700000000
                      (PStr "logo") "playbutton" (PStr "Pac") "Playing"]
           Inv).
  reflexivity.
Defined.

(** ** Image-set resolution *)

Lemma image_of_size_entry (size : string) (e : string * string) :
  image_of_size size (image_of_entry e)
  = ret (String.eqb (fst e) size && has_url e).
Proof.
  unfold image_of_size, image_of_entry, image, has_url; cbn.
  now destruct (String.eqb (fst e) size).
Qed.

Lemma image_with_url_entry (e : string * string) :
  image_with_url (image_of_entry e) = ret (has_url e).
Proof. reflexivity. Qed.

Lemma first_image_entries (test : pyval -> res bool)
      (p : string * string -> bool) (entries : list (string * string)) :
  (forall e, test (image_of_entry e) = ret (p e)) ->
  first_image test (map image_of_entry entries)
  = ret (option_map PStr (option_map snd (find p entries))).
Proof.
  intros T. induction entries as [|e more IH]; cbn; [reflexivity|].
  rewrite T; cbn. destruct (p e); [reflexivity | exact IH].
Qed.

Lemma first_image_labelled (size : string) (entries : list (string * string)) :
  first_image (image_of_size size) (map image_of_entry entries)
  = ret (option_map PStr (labelled size entries)).
Proof.
  unfold labelled.
  apply (first_image_entries _ (fun e => String.eqb (fst e) size && has_url e)).
  intros e. apply image_of_size_entry.
Qed.

(** C5: on a list of (size label, url) entries [get_largest_image] returns
    what image-set resolution prescribes: the url of the first entry with a
    url whose label is the highest present of extralarge, large, medium,
    small; failing those the first non-empty url; failing that [None].  For
    a large A and an extralarge B it returns B. *)
Theorem C5_image_set_resolution (entries : list (string * string)) :
  get_largest_image (images_of entries)
  = ret (py_of_option (image_set_resolution entries))
  /\ get_largest_image (images_of [("large", "A"); ("extralarge", "B")])
     = ret (PStr "B").
Proof.
  split; [|reflexivity].
  unfold get_largest_image, images_of.
  destruct entries as [|e more]; [reflexivity|].
  set (es := e :: more).
  replace (Py.truthy (PList (map image_of_entry es))) with true by reflexivity.
  unfold image_set_resolution; cbn [negb size_priority largest_from Py.iter bind ret].
  rewrite !first_image_labelled.
  rewrite (first_image_entries image_with_url has_url es image_with_url_entry).
  cbn [bind].
  destruct (labelled "extralarge" es); [reflexivity|].
  destruct (labelled "large" es); [reflexivity|].
  destruct (labelled "medium" es); [reflexivity|].
  destruct (labelled "small" es); [reflexivity|].
  now destruct (find has_url es).
Qed.

(** ** The resolver's fallback chain *)

Lemma get_album_from_track_returns (api : lastfm) (artist track : string) :
  exists p, get_album_from_track api artist track = ret p.
Proof.
  unfold get_album_from_track.
  destruct (bind (track_getInfo api artist track) _) as [e|[p|]]; cbn; eauto.
Qed.

Lemma get_album_from_artist_returns (api : lastfm) (artist : string) :
  exists p, get_album_from_artist api artist = ret p.
Proof.
  unfold get_album_from_artist.
  destruct (bind (artist_getTopAlbums api artist) _) as [e|[p|]]; cbn; eauto.
Qed.

Section ResolverFacts.

Variable repr : pyval -> string.
Variable cfg : settings.

Lemma nothing_found (api : lastfm) (artist track_name : string) :
  get_album_from_track api (clean_string artist) (clean_string track_name)
  = ret (PNone, PNone) ->
  get_album_from_artist api (clean_string artist) = ret (PNone, PNone) ->
  album_art_url_body repr cfg api artist track_name
  = ret (fallback_or_logo cfg, PStr (album_padded artist)).
Proof.
  intros T A. unfold album_art_url_body. rewrite T; cbn. rewrite A; cbn.
  unfold album_padded, Nat.ltb. now destruct (Nat.leb _ _).
Qed.

(** C6, as stated, fails: with both calls failing and nothing configured,
    the artist "X" comes back as "Album: X", since the text is put through
    the two-character rule on that path too. *)
Lemma C6_short_artist_is_prefixed :
  get_album_art_url no_repr default_settings unreachable "X" "Song"
  = ret (PStr "logo", PStr "Album: X")
  /\ get_album_art_url no_repr default_settings unreachable "X" "Song"
     <> ret (fallback_or_logo default_settings, PStr "X").
Proof. split; [reflexivity | discriminate]. Qed.

(** C6, amended: [get_album_art_url] always returns a pair.  A call that
    raises is caught in its tier, which then has found nothing.  When both
    tiers have found nothing the result is the fallback url, or "logo" if
    that is empty, with the artist name as given, prefixed by "Album: " when
    it has fewer than two characters.  When the body itself raises, the
    result is that image with the artist name unchanged. *)
Theorem C6_resolver_always_returns (api : lastfm) (artist track_name : string) :
  (exists key text,
      get_album_art_url repr cfg api artist track_name = ret (key, text))
  /\ (forall e,
        track_getInfo api (clean_string artist) (clean_string track_name) = raise e ->
        get_album_from_track api (clean_string artist) (clean_string track_name)
        = ret (PNone, PNone))
  /\ (forall e,
        artist_getTopAlbums api (clean_string artist) = raise e ->
        get_album_from_artist api (clean_string artist) = ret (PNone, PNone))
  /\ (get_album_from_track api (clean_string artist) (clean_string track_name)
      = ret (PNone, PNone) ->
      get_album_from_artist api (clean_string artist) = ret (PNone, PNone) ->
      get_album_art_url repr cfg api artist track_name
      = ret (fallback_or_logo cfg, PStr (album_padded artist)))
  /\ (forall e,
        album_art_url_body repr cfg api artist track_name = raise e ->
        get_album_art_url repr cfg api artist track_name
        = ret (fallback_or_logo cfg, PStr artist)).
Proof.
  split; [|split; [|split; [|split]]].
  - unfold get_album_art_url.
    destruct (album_art_url_body repr cfg api artist track_name) as [e|[key text]];
      cbn; eauto.
  - intros e E. unfold get_album_from_track. rewrite E. reflexivity.
  - intros e E. unfold get_album_from_artist. rewrite E. reflexivity.
  - intros T A. unfold get_album_art_url. rewrite (nothing_found _ _ _ T A). reflexivity.
  - intros e E. unfold get_album_art_url. rewrite E. reflexivity.
Qed.

End ResolverFacts.

Lemma C6_resolver_always_returns_witness :
  get_album_art_url no_repr default_settings unreachable "Blink 182" "Song"
  = ret (PStr "logo", PStr "Blink 182")
  /\ get_album_art_url no_repr default_settings numeric_title "X" "Song"
     = ret (PStr "logo", PStr "X").
Proof.
  pose proof (C6_resolver_always_returns no_repr default_settings
                unreachable "Blink 182" "Song") as (_ & T & A & N & _).
  pose proof (C6_resolver_always_returns no_repr default_settings
                numeric_title "X" "Song") as (_ & _ & _ & _ & B).
  split.
  - apply N.
    + apply (T (External "ConnectionError")). reflexivity.
    + apply (A (External "ConnectionError")). reflexivity.
  - apply (B TypeError). reflexivity.
Defined.

(** ** Splitting and rejoining the title *)

Lemma ends_with_tail (suffix : string) (c : ascii) (s : string) :
  ends_with suffix (String c s) = false ->
  String.eqb (String c s) suffix = false /\ ends_with suffix s = false.
Proof.
  cbn [ends_with]. intros E. now apply orb_false_elim in E.
Qed.

Lemma contains_tail (sub : string) (c : ascii) (s : string) :
  contains sub (String c s) = false ->
  starts_with sub (String c s) = false /\ contains sub s = false.
Proof.
  cbn [contains]. intros E. now apply orb_false_elim in E.
Qed.

(** A string that does not start with the delimiter and is not " -" does
    not start with it either when the delimiter is put behind it. *)
Lemma starts_with_dash_app (c : ascii) (s r : string) :
  starts_with dash (String c s) = false ->
  String.eqb (String c s) " -" = false ->
  starts_with dash (String c s ++ dash ++ r) = false.
Proof.
  unfold dash. intros S N.
  destruct s as [|c2 [|c3 s]]; cbn [append starts_with] in *.
  - now rewrite andb_false_r.
  - cbn [String.eqb] in N.
    rewrite (Ascii.eqb_sym " " c), (Ascii.eqb_sym "-" c2).
    destruct (Ascii.eqb c " "); [|reflexivity].
    destruct (Ascii.eqb c2 "-"); [discriminate N|reflexivity].
  - exact S.
Qed.

Lemma split_dash_head (head rest : string) :
  no_dash head = true -> ends_with " -" head = false ->
  split_dash (head ++ dash ++ rest) = head :: split_dash rest.
Proof.
  unfold no_dash. intros N. apply negb_true_iff in N. revert N.
  induction head as [|c head IH]; intros N E; [reflexivity|].
  apply contains_tail in N as [S N]. apply ends_with_tail in E as [Q E].
  change (String c head ++ dash ++ rest) with (String c (head ++ dash ++ rest)).
  rewrite split_dash_at_char by exact (starts_with_dash_app c head rest S Q).
  now rewrite IH.
Qed.

Lemma split_dash_whole (s : string) : no_dash s = true -> split_dash s = [s].
Proof.
  unfold no_dash. intros N. apply negb_true_iff in N. revert N.
  induction s as [|c s IH]; intros N; [reflexivity|].
  apply contains_tail in N as [S N].
  rewrite split_dash_at_char by exact S. now rewrite IH.
Qed.

Lemma push_char_app (c : ascii) (segs more : list string) :
  segs <> [] -> push_char c (segs ++ more) = (push_char c segs ++ more)%list.
Proof. now destruct segs. Qed.

Lemma split_dash_last (title player : string) :
  ends_with " -" title = false -> no_dash player = true ->
  split_dash (title ++ dash ++ player) = (split_dash title ++ [player])%list.
Proof.
  intros E N. revert E.
  induction title as [| title IH | c title S IH] using split_dash_scan; intros E.
  - cbn [append]. rewrite split_dash_at_dash. now rewrite split_dash_whole.
  - change ((dash ++ title) ++ dash ++ player) with (dash ++ (title ++ dash ++ player)).
    rewrite !split_dash_at_dash, IH; [reflexivity|].
    unfold dash in E.
    now do 3 (apply ends_with_tail in E as [_ E]).
  - apply ends_with_tail in E as [Q E].
    change (String c title ++ dash ++ player)
      with (String c (title ++ dash ++ player)).
    rewrite split_dash_at_char by exact (starts_with_dash_app c title player S Q).
    rewrite (split_dash_at_char c title S), (IH E).
    apply push_char_app, split_dash_not_nil.
Qed.

(** Joining the segments of a string gives the string back. *)
Lemma join_split_dash (s : string) : join_dash (split_dash s) = s.
Proof.
  unfold join_dash.
  induction s as [| s IH | c s S IH] using split_dash_scan.
  - reflexivity.
  - rewrite split_dash_at_dash.
    pose proof (split_dash_not_nil s) as N.
    destruct (split_dash s) as [|x xs]; [easy|].
    change (String.concat dash (EmptyString :: x :: xs))
      with (dash ++ String.concat dash (x :: xs)).
    now rewrite IH.
  - rewrite (split_dash_at_char c s S).
    pose proof (split_dash_not_nil s) as N.
    destruct (split_dash s) as [|x xs]; [easy|].
    cbn [push_char]. rewrite <- IH. now destruct xs.
Qed.

Lemma contains_dash_length (s : string) :
  contains dash s = true -> 3 <= String.length s.
Proof.
  induction s as [|c s IH]; cbn [contains]; intros E.
  - discriminate.
  - apply orb_prop in E as [E|E].
    + destruct (starts_with_dash_inv _ E) as [after ->]. cbn. lia.
    + specialize (IH E). cbn. lia.
Qed.

Section TitleFacts.

Variable repr : pyval -> string.
Variable cfg : settings.

(** C8, as stated, fails: the title "x - y -" contains the delimiter, and
    in "1. A - x - y - - Winamp" its last two characters and the space
    after them are taken as a delimiter, so the title comes out as "x - y"
    and the player segment as "- Winamp". *)
Lemma C8_title_ending_in_hyphen_is_cut :
  contains dash "x - y -" = true
  /\ split_dash ("1. A" ++ dash ++ "x - y -" ++ dash ++ "Winamp")
     = ["1. A"; "x"; "y"; "- Winamp"]
  /\ update_rpc no_repr default_settings
       (observe Playing ("1. A" ++ dash ++ "x - y -" ++ dash ++ "Winamp") 0 0) initial
     = (ret tt,
        {| previous_track := "1. A - x - y - - Winamp"; cleared := false |},
        [RpcUpdate "x - y" "by A" 1700000000
                   (PStr "logo") "playbutton" (PStr "Album: A") "Playing"])
  /\ "x - y" <> "x - y -".
Proof. repeat split; discriminate || reflexivity. Qed.

(** C8, amended: for a title of the form head, delimiter, title, delimiter,
    player name, where head and player name do not contain the delimiter and
    neither head nor title ends in " -", the driver drops the player name,
    keeps the head as first segment and rejoins the segments of the title
    with the delimiter into the title itself; such a title that contains the
    delimiter is pushed as it is.  "3. Artist - Song - Title - Player" at
    playlist index 2 gives the artist "Artist" and the title
    "Song - Title". *)
Theorem C8_title_rejoined (head title player : string) :
  no_dash head = true -> ends_with " -" head = false ->
  ends_with " -" title = false -> no_dash player = true ->
  trackinfo_of (head ++ dash ++ title ++ dash ++ player) = head :: split_dash title
  /\ join_dash (split_dash title) = title
  /\ (contains dash title = true -> track_name_of (split_dash title) = title)
  /\ (forall (o : observation) (st st' : session) (evs : list event),
        track_title o = head ++ dash ++ title ++ dash ++ player ->
        track_title o <> previous_track st ->
        update_rpc repr cfg o st = (ret tt, st', evs) ->
        exists key text,
          evs = [RpcUpdate (if Nat.ltb (String.length title) 2
                            then "Track: " ++ title else title)
                           ("by " ++ artist_of (playlist_position o) head)
                           (start_timestamp (track_status_ms o) (time_now o))
                           key (small_asset_key cfg)
                           text (small_asset_text cfg)])
  /\ update_rpc no_repr default_settings
       (observe Playing "3. Artist - Song - Title - Player" 2 0) initial
     = (ret tt,
        {| previous_track := "3. Artist - Song - Title - Player"; cleared := false |},
        [RpcUpdate "Song - Title" "by Artist" 1700000000
                   (PStr "logo") "playbutton" (PStr "Artist") "Playing"]).
Proof.
  intros Hh Eh Et Hp.
  assert (T : trackinfo_of (head ++ dash ++ title ++ dash ++ player)
              = head :: split_dash title).
  { unfold trackinfo_of, all_but_last.
    rewrite (split_dash_head _ _ Hh Eh), (split_dash_last _ _ Et Hp).
    change (head :: split_dash title ++ [player])%list
      with ((head :: split_dash title) ++ [player])%list.
    apply removelast_last. }
  assert (J : join_dash (split_dash title) = title) by apply join_split_dash.
  split; [exact T|]. split; [exact J|]. split; [|split; [|reflexivity]].
  - intros C. apply contains_dash_length in C.
    unfold track_name_of. rewrite J.
    destruct (Nat.ltb_spec (String.length title) 2); [lia | reflexivity].
  - intros o st st' evs Raw New. unfold update_rpc.
    apply String.eqb_neq in New. rewrite New. cbn [negb].
    rewrite Raw, T.
    destruct (large_asset repr cfg o _ _) as [e|[key text]]; [discriminate|].
    intros [= <- <-]. exists key, text.
    unfold track_name_of. now rewrite J.
Qed.

End TitleFacts.

Lemma C8_title_rejoined_witness :
  trackinfo_of "3. Artist - Song - Title - Player" = ["3. Artist"; "Song"; "Title"]
  /\ join_dash ["Song"; "Title"] = "Song - Title".
Proof.
  destruct (C8_title_rejoined no_repr default_settings
              "3. Artist" "Song - Title" "Player"
              eq_refl eq_refl eq_refl eq_refl) as (T & J & _).
  split; [exact T | exact J].
Defined.

(** ** The normalizer *)

Create HintDb clean.
#[local] Hint Constructors thinned : clean.

Lemma thinned_refl (s : string) : thinned s s.
Proof. induction s; auto with clean. Qed.

Lemma thinned_mem (c : ascii) (s t : string) :
  thinned s t -> c <> " "%char -> mem c t = true -> mem c s = true.
Proof.
  intros T N. induction T; cbn [mem]; intros M; auto.
  - rewrite IHT by exact M. apply orb_true_r.
  - apply orb_prop in M as [M|M]; [now rewrite M|].
    rewrite IHT by exact M. apply orb_true_r.
  - apply orb_prop in M as [M|M].
    + apply Ascii.eqb_eq in M. contradiction.
    + rewrite IHT by exact M. apply orb_true_r.
Qed.

Lemma thinned_single_line (s t : string) :
  thinned s t -> single_line s = true -> single_line t = true.
Proof.
  unfold single_line. intros T L.
  apply negb_true_iff in L. apply negb_true_iff.
  destruct (mem newline t) eqn:M; [|reflexivity].
  rewrite (thinned_mem newline s t T) in L; [discriminate L | discriminate | exact M].
Qed.

Lemma closes_mem (c : ascii) (s : string) : Re.closes c s = true -> mem c s = true.
Proof.
  induction s as [|d s IH]; cbn [Re.closes mem]; [discriminate|].
  rewrite (Ascii.eqb_sym c d).
  destruct (Ascii.eqb d c); [reflexivity|].
  destruct (Ascii.eqb d newline); [discriminate | exact IH].
Qed.

Lemma single_line_tail (d : ascii) (s : string) :
  single_line (String d s) = true ->
  Ascii.eqb d newline = false /\ single_line s = true.
Proof.
  unfold single_line. cbn [mem]. intros L.
  apply negb_true_iff, orb_false_elim in L as [A B].
  rewrite Ascii.eqb_sym. split; [exact A | now apply negb_true_iff].
Qed.

Lemma mem_closes (c : ascii) (s : string) :
  single_line s = true -> mem c s = true -> Re.closes c s = true.
Proof.
  induction s as [|d s IH]; cbn [Re.closes mem]; [discriminate|].
  intros L M. apply single_line_tail in L as [N L].
  rewrite (Ascii.eqb_sym c d) in M.
  destruct (Ascii.eqb d c); [reflexivity|].
  rewrite N. now apply IH.
Qed.

(** Thinning a single line makes no new match of [o .*? c]. *)
Lemma thinned_no_group (o c : ascii) (s t : string) :
  thinned s t -> o <> " "%char -> c <> " "%char ->
  single_line s = true -> no_group o c s = true -> no_group o c t = true.
Proof.
  intros T No Nc. induction T; cbn [no_group]; intros L G; auto.
  - apply single_line_tail in L as [_ L].
    apply andb_prop in G as [_ G]. auto.
  - apply single_line_tail in L as [_ L].
    apply andb_prop in G as [H G]. rewrite (IHT L G), andb_true_r.
    destruct (Ascii.eqb d o); [|reflexivity].
    cbn [andb negb] in *. apply negb_true_iff in H. apply negb_true_iff.
    destruct (Re.closes c t) eqn:C; [|reflexivity].
    rewrite (mem_closes c s L) in H; [discriminate H|].
    apply (thinned_mem c s t T Nc), closes_mem, C.
  - apply single_line_tail in L as [_ L].
    apply andb_prop in G as [_ G]. rewrite (IHT L G), andb_true_r.
    replace (Ascii.eqb " " o) with false; [reflexivity|].
    symmetry. apply Ascii.eqb_neq. congruence.
Qed.

Lemma sub_group_thinned (o c : ascii) (s : string) :
  forall inside, thinned s (Re.sub_group o c inside s).
Proof.
  induction s as [|d s IH]; intros inside; cbn [Re.sub_group]; [constructor|].
  destruct inside; [auto with clean|].
  destruct (_ && _); auto with clean.
Qed.

Lemma sub_spaces_thinned (s : string) :
  forall in_run, thinned s (Re.sub_spaces in_run s).
Proof.
  induction s as [|d s IH]; intros in_run; cbn [Re.sub_spaces]; [constructor|].
  destruct (is_space d) eqn:W; [|auto with clean].
  destruct in_run; auto with clean.
Qed.

Lemma lstrip_thinned (p : ascii -> bool) (s : string) : thinned s (lstrip_by p s).
Proof.
  induction s as [|d s IH]; cbn [lstrip_by]; [constructor|].
  destruct (p d); [auto with clean | apply thinned_refl].
Qed.

Lemma rstrip_thinned (p : ascii -> bool) (s : string) : thinned s (rstrip_by p s).
Proof.
  induction s as [|d s IH]; cbn [rstrip_by]; [constructor|].
  destruct (rstrip_by p s) as [|e k]; [|auto with clean].
  destruct (p d); auto with clean.
Qed.

(** After the substitution the pattern matches nowhere. *)
Lemma sub_group_no_group (o c : ascii) (s : string) :
  c <> " "%char -> single_line s = true ->
  forall inside, no_group o c (Re.sub_group o c inside s) = true.
Proof.
  intros Nc. induction s as [|d s IH]; intros L inside; [reflexivity|].
  apply single_line_tail in L as [N L]. cbn [Re.sub_group].
  destruct inside; [now apply IH|].
  destruct (Ascii.eqb d o && Re.closes c s) eqn:M; [now apply IH|].
  cbn [no_group]. rewrite (IH L false), andb_true_r.
  apply negb_true_iff.
  destruct (Ascii.eqb d o); [|reflexivity]. cbn [andb] in *.
  destruct (Re.closes c (Re.sub_group o c false s)) eqn:C; [|reflexivity].
  rewrite <- M. symmetry. apply (mem_closes c s L).
  apply (thinned_mem c s _ (sub_group_thinned o c s false) Nc), closes_mem, C.
Qed.

(** Where the pattern matches nowhere the substitution changes nothing. *)
Lemma sub_group_fixed (o c : ascii) (s : string) :
  no_group o c s = true -> Re.sub_group o c false s = s.
Proof.
  induction s as [|d s IH]; cbn [no_group Re.sub_group]; [reflexivity|].
  intros G. apply andb_prop in G as [H G].
  apply negb_true_iff in H. rewrite H. now rewrite IH.
Qed.

Lemma sub_spaces_tidy (s : string) :
  forall in_run,
    tidy (Re.sub_spaces in_run s) = true
    /\ (in_run = true -> starts_with_space (Re.sub_spaces in_run s) = false).
Proof.
  induction s as [|d s IH]; intros in_run; [now split|].
  cbn [Re.sub_spaces].
  destruct (is_space d) eqn:W.
  - destruct in_run; [apply IH|].
    destruct (IH true) as [T S]. split; [|discriminate].
    cbn [tidy]. now rewrite T, (S eq_refl).
  - destruct (IH false) as [T _]. split.
    + cbn [tidy]. now rewrite W, T.
    + intros _. exact W.
Qed.

Lemma sub_spaces_after_run (s : string) :
  starts_with_space s = false -> Re.sub_spaces true s = Re.sub_spaces false s.
Proof.
  destruct s as [|d s]; [reflexivity|].
  cbn [starts_with_space Re.sub_spaces]. now intros ->.
Qed.

Lemma sub_spaces_fixed (s : string) : tidy s = true -> Re.sub_spaces false s = s.
Proof.
  induction s as [|d s IH]; cbn [tidy Re.sub_spaces]; [reflexivity|].
  intros T. apply andb_prop in T as [H T].
  destruct (is_space d); [|now rewrite IH].
  apply andb_prop in H as [E S].
  apply Ascii.eqb_eq in E. apply negb_true_iff in S.
  now rewrite (sub_spaces_after_run s S), IH, E.
Qed.

Lemma lstrip_tidy (p : ascii -> bool) (s : string) :
  tidy s = true -> tidy (lstrip_by p s) = true.
Proof.
  induction s as [|d s IH]; cbn [lstrip_by]; [reflexivity|].
  intros T. destruct (p d); [|exact T].
  cbn [tidy] in T. apply andb_prop in T as [_ T]. now apply IH.
Qed.

Lemma rstrip_first (p : ascii -> bool) (s : string) (e : ascii) (k : string) :
  rstrip_by p s = String e k -> exists s', s = String e s'.
Proof.
  destruct s as [|d s]; cbn [rstrip_by]; [discriminate|].
  destruct (rstrip_by p s); [destruct (p d)|]; intros [= <- <-] || discriminate; eauto.
Qed.

Lemma rstrip_tidy (p : ascii -> bool) (s : string) :
  tidy s = true -> tidy (rstrip_by p s) = true.
Proof.
  induction s as [|d s IH]; cbn [rstrip_by]; [reflexivity|].
  intros T. cbn [tidy] in T. apply andb_prop in T as [H T].
  specialize (IH T).
  destruct (rstrip_by p s) as [|e k] eqn:R.
  - destruct (p d); [reflexivity|].
    cbn [tidy starts_with_space]. destruct (is_space d); [|reflexivity].
    apply andb_prop in H as [-> _]. reflexivity.
  - destruct (rstrip_first p s e k R) as [s' ->].
    cbn [tidy] in *. now rewrite IH, andb_true_r.
Qed.

(** Stripping what has been stripped changes nothing. *)
Lemma rstrip_fixed (p : ascii -> bool) (s : string) :
  rstrip_by p (rstrip_by p s) = rstrip_by p s.
Proof.
  induction s as [|d s IH]; cbn [rstrip_by]; [reflexivity|].
  destruct (rstrip_by p s) as [|e k] eqn:R.
  - destruct (p d) eqn:Pd; cbn [rstrip_by]; [reflexivity | now rewrite Pd].
  - cbn [rstrip_by]. cbn [rstrip_by] in IH. now rewrite IH.
Qed.

Lemma lstrip_starts (p : ascii -> bool) (s : string) :
  starts_in p (lstrip_by p s) = false.
Proof.
  induction s as [|d s IH]; cbn [lstrip_by]; [reflexivity|].
  destruct (p d) eqn:Pd; [exact IH | exact Pd].
Qed.

Lemma rstrip_starts (p : ascii -> bool) (s : string) :
  starts_in p s = false -> starts_in p (rstrip_by p s) = false.
Proof.
  destruct s as [|d s]; cbn [starts_in rstrip_by]; [reflexivity|].
  intros Pd. destruct (rstrip_by p s); cbn [starts_in]; now rewrite ?Pd.
Qed.

Lemma lstrip_fixed (p : ascii -> bool) (s : string) :
  starts_in p s = false -> lstrip_by p s = s.
Proof.
  destruct s as [|d s]; cbn [starts_in lstrip_by]; [reflexivity|]. now intros ->.
Qed.

Lemma strip_by_fixed (p : ascii -> bool) (s : string) :
  strip_by p (strip_by p s) = strip_by p s.
Proof.
  unfold strip_by.
  rewrite (lstrip_fixed p (rstrip_by p (lstrip_by p s))).
  - apply rstrip_fixed.
  - apply rstrip_starts, lstrip_starts.
Qed.

(** What [clean_string] returns from a single line: no parenthesised and no
    bracketed group is left, whitespace is single spaces, none at the ends
    (the last by [strip_by_fixed]). *)
Lemma clean_string_shape (x : string) :
  single_line x = true ->
  no_group "(" ")" (clean_string x) = true
  /\ no_group "[" "]" (clean_string x) = true
  /\ tidy (clean_string x) = true.
Proof.
  intros L0. unfold clean_string, strip, strip_by.
  set (s1 := Re.sub_group "(" ")" false x).
  set (s2 := Re.sub_group "[" "]" false s1).
  set (s3 := Re.sub_spaces false s2).
  set (s4 := lstrip_by is_space s3).
  assert (T1 : thinned x s1) by apply sub_group_thinned.
  assert (T2 : thinned s1 s2) by apply sub_group_thinned.
  assert (T3 : thinned s2 s3) by apply sub_spaces_thinned.
  assert (T4 : thinned s3 s4) by apply lstrip_thinned.
  assert (T5 : thinned s4 (rstrip_by is_space s4)) by apply rstrip_thinned.
  pose proof (thinned_single_line _ _ T1 L0) as L1.
  pose proof (thinned_single_line _ _ T2 L1) as L2.
  pose proof (thinned_single_line _ _ T3 L2) as L3.
  pose proof (thinned_single_line _ _ T4 L3) as L4.
  assert (P1 : no_group "(" ")" s1 = true)
    by (apply sub_group_no_group; [discriminate | exact L0]).
  assert (B2 : no_group "[" "]" s2 = true)
    by (apply sub_group_no_group; [discriminate | exact L1]).
  assert (K : forall o c s t, o <> " "%char -> c <> " "%char ->
                thinned s t -> single_line s = true ->
                no_group o c s = true -> no_group o c t = true)
    by (intros; eapply thinned_no_group; eauto).
  repeat split.
  - apply (K _ _ s4); [discriminate.. | exact T5 | exact L4 |].
    apply (K _ _ s3); [discriminate.. | exact T4 | exact L3 |].
    apply (K _ _ s2); [discriminate.. | exact T3 | exact L2 |].
    apply (K _ _ s1); [discriminate.. | exact T2 | exact L1 | exact P1].
  - apply (K _ _ s4); [discriminate.. | exact T5 | exact L4 |].
    apply (K _ _ s3); [discriminate.. | exact T4 | exact L3 |].
    apply (K _ _ s2); [discriminate.. | exact T3 | exact L2 | exact B2].
  - apply rstrip_tidy, lstrip_tidy, sub_spaces_tidy.
Qed.

(** C9, as stated, fails: a parenthesis pair around a line feed is not a
    match, the line feed becomes a space, and the second pass removes the
    group that the first one left. *)
Lemma C9_line_feed_breaks_idempotence :
  clean_string (String "(" (String newline ")")) = "( )"
  /\ clean_string (clean_string (String "(" (String newline ")"))) = ""
  /\ clean_string (clean_string (String "(" (String newline ")")))
     <> clean_string (String "(" (String newline ")")).
Proof. repeat split; discriminate || reflexivity. Qed.

(** C9, amended: on every string without a line feed [clean_string] is
    idempotent; "Song (Remix) [Live]" gives "Song" and "A   B" gives
    "A B". *)
Theorem C9_clean_string_idempotent_on_a_line (x : string) :
  single_line x = true ->
  clean_string (clean_string x) = clean_string x
  /\ clean_string "Song (Remix) [Live]" = "Song"
  /\ clean_string "A   B" = "A B".
Proof.
  intros L. split; [|split; reflexivity].
  destruct (clean_string_shape x L) as (P & B & T).
  unfold clean_string at 1.
  rewrite (sub_group_fixed _ _ _ P), (sub_group_fixed _ _ _ B),
          (sub_spaces_fixed _ T).
  unfold clean_string, strip. apply strip_by_fixed.
Qed.

Lemma C9_clean_string_idempotent_on_a_line_witness :
  clean_string (clean_string "  Song (Remix)  [Live] (a [b) c] ")
  = clean_string "  Song (Remix)  [Live] (a [b) c] ".
Proof.
  apply (C9_clean_string_idempotent_on_a_line "  Song (Remix)  [Live] (a [b) c] ").
  reflexivity.
Defined.

(** * Further properties of the code *)

(** ** Splitting the title *)

Lemma push_char_length (c : ascii) (segs : list string) :
  segs <> [] -> List.length (push_char c segs) = List.length segs.
Proof. now destruct segs. Qed.

Lemma split_dash_two (s : string) :
  contains dash s = true -> 2 <= List.length (split_dash s).
Proof.
  induction s as [| s IH | c s S IH] using split_dash_scan; intros C.
  - discriminate C.
  - rewrite split_dash_at_dash. cbn [List.length].
    pose proof (split_dash_not_nil s) as N.
    destruct (split_dash s); [easy | cbn; lia].
  - rewrite (split_dash_at_char c s S), push_char_length by apply split_dash_not_nil.
    apply IH. cbn [contains] in C. now rewrite S in C.
Qed.

(** Splitting a string at the delimiter and joining the segments with it
    gives the string back, whatever the string. *)
Theorem split_then_join_is_identity (s : string) :
  join_dash (split_dash s) = s /\ split_dash s <> [].
Proof. split; [apply join_split_dash | apply split_dash_not_nil]. Qed.

(** The segments kept by [update_rpc] are none exactly when the title
    has no delimiter; with a delimiter there is a first segment to take the
    artist from. *)
Theorem trackinfo_empty_iff_no_delimiter (raw : string) :
  (contains dash raw = false <-> trackinfo_of raw = [])
  /\ (contains dash raw = false -> split_dash raw = [raw]).
Proof.
  split; [split|].
  - intros C. apply trackinfo_of_short.
    rewrite split_dash_whole; [cbn; lia|]. unfold no_dash. now rewrite C.
  - intros T. destruct (contains dash raw) eqn:C; [|reflexivity].
    apply split_dash_two in C. unfold trackinfo_of, all_but_last in T.
    destruct (split_dash raw) as [|a [|b l]]; cbn in *; [lia | lia | discriminate].
  - intros C. apply split_dash_whole. unfold no_dash. now rewrite C.
Qed.

(** ** What [strip] leaves of the first segment *)

Lemma lstrip_parts (p : ascii -> bool) (s : string) :
  exists a, s = a ++ lstrip_by p s /\ all_in p a = true.
Proof.
  induction s as [|d s (a & E & A)]; [now exists EmptyString|].
  cbn [lstrip_by]. destruct (p d) eqn:Pd.
  - exists (String d a). cbn [append all_in]. now rewrite Pd, A, <- E.
  - now exists EmptyString.
Qed.

Lemma rstrip_parts (p : ascii -> bool) (s : string) :
  exists b, s = rstrip_by p s ++ b /\ all_in p b = true.
Proof.
  induction s as [|d s (b & E & B)]; [now exists EmptyString|].
  cbn [rstrip_by]. destruct (rstrip_by p s) as [|e k].
  - cbn [append] in E. subst b. destruct (p d) eqn:Pd.
    + exists (String d s). cbn [append all_in]. now rewrite Pd, B.
    + now exists s.
  - exists b. split; [exact (f_equal (String d) E) | exact B].
Qed.

Lemma rstrip_ends (p : ascii -> bool) (s : string) :
  ends_in p (rstrip_by p s) = false.
Proof.
  induction s as [|d s IH]; [reflexivity|].
  cbn [rstrip_by]. destruct (rstrip_by p s) as [|e k].
  - destruct (p d) eqn:Pd; [reflexivity | exact Pd].
  - exact IH.
Qed.

Lemma lstrip_all (p : ascii -> bool) (a s : string) :
  all_in p a = true -> lstrip_by p (a ++ s) = lstrip_by p s.
Proof.
  induction a as [|d a IH]; [reflexivity|].
  cbn [all_in append lstrip_by]. intros A. apply andb_prop in A as [-> A]. auto.
Qed.

Lemma rstrip_kept (p : ascii -> bool) (s : string) :
  ends_in p s = false -> rstrip_by p s = s.
Proof.
  induction s as [|d s IH]; [reflexivity|].
  cbn [rstrip_by]. destruct s as [|e s].
  - cbn. now intros ->.
  - intros E. change (ends_in p (String e s) = false) in E.
    now rewrite (IH E).
Qed.

Lemma append_assoc (a b c : string) : (a ++ b) ++ c = a ++ b ++ c.
Proof. induction a as [|d a IH]; cbn [append]; [reflexivity | now rewrite IH]. Qed.

Lemma mem_app_r (c : ascii) (a b : string) : mem c b = true -> mem c (a ++ b) = true.
Proof.
  induction a as [|d a IH]; [easy|].
  intros M. cbn [append mem]. rewrite (IH M). apply orb_true_r.
Qed.

Lemma all_in_own_chars (chars : string) : all_in (fun c => mem c chars) chars = true.
Proof.
  assert (G : forall s pre, all_in (fun c => mem c (pre ++ s)) s = true).
  { induction s as [|d s IH]; intros pre; [reflexivity|].
    cbn [all_in]. apply andb_true_intro. split.
    - apply mem_app_r. cbn [mem]. now rewrite Ascii.eqb_refl.
    - specialize (IH (pre ++ String d EmptyString)).
      now rewrite append_assoc in IH. }
  exact (G chars EmptyString).
Qed.

(** The artist [update_rpc] takes from a first segment is that segment
    without some characters of ["{track_pos + 1}. "] at its two ends, and it
    neither begins nor ends with such a character: not with a space, a dot
    or a digit of the number. *)
Theorem artist_is_first_segment_trimmed (track_pos : Z) (first : string) :
  (exists a b,
      first = a ++ artist_of track_pos first ++ b
      /\ all_in (prefix_chars track_pos) a = true
      /\ all_in (prefix_chars track_pos) b = true)
  /\ starts_in (prefix_chars track_pos) (artist_of track_pos first) = false
  /\ ends_in (prefix_chars track_pos) (artist_of track_pos first) = false.
Proof.
  unfold artist_of, strip_chars, strip_by.
  fold (prefix_chars track_pos).
  set (p := prefix_chars track_pos).
  split; [|split].
  - destruct (lstrip_parts p first) as (a & Ea & A).
    destruct (rstrip_parts p (lstrip_by p first)) as (b & Eb & B).
    exists a, b. repeat split; try assumption.
    now rewrite <- Eb.
  - apply rstrip_starts, lstrip_starts.
  - apply rstrip_ends.
Qed.

(** When the artist neither begins nor ends with a character of
    ["{track_pos + 1}. "], the artist taken from the segment
    ["{track_pos + 1}. {artist}"] is the artist. *)
Theorem artist_of_numbered_segment (track_pos : Z) (artist : string) :
  starts_in (prefix_chars track_pos) artist = false ->
  ends_in (prefix_chars track_pos) artist = false ->
  artist_of track_pos (str_of_int (track_pos + 1) ++ ". " ++ artist) = artist.
Proof.
  intros S E. unfold artist_of, strip_chars, strip_by.
  fold (prefix_chars track_pos).
  rewrite <- append_assoc.
  rewrite lstrip_all by apply all_in_own_chars.
  rewrite (lstrip_fixed _ _ S). apply rstrip_kept, E.
Qed.

Lemma artist_of_numbered_segment_witness :
  artist_of 4 (str_of_int (4 + 1) ++ ". " ++ "Daft Punk") = "Daft Punk".
Proof.
  apply (artist_of_numbered_segment 4 "Daft Punk"); reflexivity.
Defined.

(** ** The driver: when it raises and what it pushes *)

Lemma track_name_at_least_two (rest : list string) :
  2 <= String.length (track_name_of rest).
Proof.
  unfold track_name_of.
  destruct (Nat.ltb_spec (String.length (join_dash rest)) 2); [cbn; lia | lia].
Qed.

Section DriverMore.

Variable repr : pyval -> string.
Variable cfg : settings.

Lemma get_album_art_url_returns (api : lastfm) (artist track_name : string) :
  exists pair, get_album_art_url repr cfg api artist track_name = ret pair.
Proof.
  unfold get_album_art_url.
  destruct (album_art_url_body repr cfg api artist track_name); cbn; eauto.
Qed.

Lemma large_asset_returns (o : observation) (artist track_name : string) :
  use_direct_urls cfg || negb (custom_assets cfg) = true ->
  exists pair, large_asset repr cfg o artist track_name = ret pair.
Proof.
  unfold large_asset. destruct (use_direct_urls cfg); cbn.
  - intros _. apply get_album_art_url_returns.
  - intros C. apply negb_true_iff in C. rewrite C. eauto.
Qed.

(** With the direct urls on, or the custom assets off, a call of the driver
    raises what a call on the player or on the presence client raises, the
    first one in the order they are made, and [IndexError] when the title
    is new and has no delimiter, once the position in the playlist has been
    read; in every other case it returns.  With calls that return it is
    [update_rpc]. *)
Theorem update_rpc_raises_from_calls_or_title (f : faults) (o : observation)
        (st : session) :
  use_direct_urls cfg || negb (custom_assets cfg) = true ->
  update_rpc_faulty repr cfg no_faults o st = update_rpc repr cfg o st
  /\ fst (fst (update_rpc_faulty repr cfg f o st))
     = match title_fault f with
       | Some e => raise e
       | None =>
           if String.eqb (track_title o) (previous_track st) then ret tt
           else
             match position_fault f with
             | Some e => raise e
             | None =>
                 if negb (contains dash (track_title o)) then raise IndexError
                 else
                   match status_fault f with
                   | Some e => raise e
                   | None =>
                       match update_fault f with
                       | Some e => raise e
                       | None => ret tt
                       end
                   end
             end
       end.
Proof.
  intros Mode. split.
  - unfold update_rpc_faulty, update_rpc. cbn [title_fault position_fault
      status_fault update_fault no_faults].
    destruct (negb _); [|reflexivity].
    destruct (trackinfo_of (track_title o)); [reflexivity|].
    now destruct (large_asset repr cfg o _ _) as [e|[key text]].
  - unfold update_rpc_faulty.
    destruct (title_fault f); [reflexivity|].
    destruct (String.eqb (track_title o) (previous_track st)); [reflexivity|].
    cbn [negb].
    destruct (position_fault f); [reflexivity|].
    destruct (contains dash (track_title o)) eqn:C; cbn [negb].
    + apply split_dash_two in C. unfold trackinfo_of, all_but_last.
      destruct (split_dash (track_title o)) as [|a [|b l]]; cbn in C; try lia.
      cbn [removelast].
      destruct (status_fault f); [reflexivity|].
      match goal with
      | |- context [large_asset repr cfg o ?x ?y] =>
          destruct (large_asset_returns o x y Mode) as [[key text] ->]
      end.
      now destruct (update_fault f).
    + rewrite trackinfo_of_short; [reflexivity|].
      rewrite split_dash_whole; [cbn; lia|]. unfold no_dash. now rewrite C.
Qed.

(** A call of the driver makes at most one call on the presence client,
    never a clear; what it pushes has details of at least two characters, a
    state that begins with "by ", and the small image and text of the
    settings. *)
Theorem update_rpc_pushes_well_formed (o : observation) (st : session) :
  List.length (snd (update_rpc repr cfg o st)) <= 1
  /\ forall e, In e (snd (update_rpc repr cfg o st)) ->
       exists details artist start key text,
         e = RpcUpdate details ("by " ++ artist) start
                       key (small_asset_key cfg) text (small_asset_text cfg)
         /\ 2 <= String.length details.
Proof.
  unfold update_rpc.
  destruct (negb _); [|cbn; split; [lia | easy]].
  destruct (trackinfo_of (track_title o)) as [|first rest]; [cbn; split; [lia | easy]|].
  destruct (large_asset repr cfg o _ _) as [e|[key text]]; cbn; [split; [lia | easy]|].
  split; [lia|].
  intros e [<-|[]]. do 5 eexists. split; [reflexivity|].
  apply track_name_at_least_two.
Qed.

(** A new title with the delimiter once, as the player shows a file that
    has no artist tag, is pushed with the details "Track: " and with what is
    before the delimiter, trimmed, as the artist. *)
Theorem title_with_one_delimiter (a b : string) (o : observation)
        (st st' : session) (evs : list event) :
  no_dash a = true -> ends_with " -" a = false -> no_dash b = true ->
  track_title o = a ++ dash ++ b ->
  track_title o <> previous_track st ->
  update_rpc repr cfg o st = (ret tt, st', evs) ->
  exists key text,
    evs = [RpcUpdate "Track: " ("by " ++ artist_of (playlist_position o) a)
                     (start_timestamp (track_status_ms o) (time_now o))
                     key (small_asset_key cfg) text (small_asset_text cfg)].
Proof.
  intros Na Ea Nb Raw New. unfold update_rpc.
  apply String.eqb_neq in New. rewrite New. cbn [negb].
  unfold trackinfo_of, all_but_last.
  rewrite Raw, (split_dash_head _ _ Na Ea), (split_dash_whole _ Nb).
  cbn [removelast].
  destruct (large_asset repr cfg o _ _) as [e|[key text]]; [discriminate|].
  intros [= <- <-]. now exists key, text.
Qed.

End DriverMore.

Lemma update_rpc_raises_from_calls_or_title_witness :
  update_rpc_faulty no_repr default_settings no_faults playing_2pac initial
  = update_rpc no_repr default_settings playing_2pac initial
  /\ fst (fst (update_rpc_faulty no_repr default_settings status_fails
                                 playing_2pac initial))
     = raise (External "WinampError").
Proof.
  apply (update_rpc_raises_from_calls_or_title no_repr default_settings
           status_fails playing_2pac initial).
  reflexivity.
Defined.

Lemma title_with_one_delimiter_witness :
  exists key text,
    [RpcUpdate "Track: " "by Song" 1700000000
               (PStr "logo") "playbutton" (PStr "Winamp v5.666") "Playing"]
    = [RpcUpdate "Track: " ("by " ++ artist_of 0 "1. Song")
                 (start_timestamp 0 (inject_Z 1700000000))
                 key "playbutton" text "Playing"].
Proof.
  apply (title_with_one_delimiter no_repr logo_settings "1. Song" "Winamp"
           (observe Playing "1. Song - Winamp" 0 0) initial
           {| previous_track := "1. Song - Winamp"; cleared := false |}).
  - reflexivity.
  - reflexivity.
  - reflexivity.
  - reflexivity.
  - cbn. discriminate.
  - reflexivity.
Defined.

(** ** The start of the track *)

Lemma int_of_float_monotone (x y : Q) :
  (x <= y)%Q -> (int_of_float x <= int_of_float y)%Z.
Proof.
  unfold Qle, int_of_float. destruct x as [a b], y as [c d]; cbn. intros L.
  rewrite <- (Z.quot_mul_cancel_r a (Zpos b) (Zpos d)) by lia.
  rewrite <- (Z.quot_mul_cancel_r c (Zpos d) (Zpos b)) by lia.
  rewrite (Z.mul_comm (Zpos d) (Zpos b)).
  apply Z.quot_le_mono; lia.
Qed.

Lemma fix_position_range (ms : Z) :
  (0 <= ms)%Z ->
  (0 <= fix_position (seconds_of_ms ms))%Q
  /\ (fix_position (seconds_of_ms ms) <= inject_Z 100000)%Q.
Proof.
  intros P. unfold fix_position.
  destruct (Qle_bool (inject_Z 100000) (seconds_of_ms ms)) eqn:B.
  - split; [apply Qle_refl | discriminate].
  - assert (N : ~ (inject_Z 100000 <= seconds_of_ms ms)%Q).
    { intros L. apply Qle_bool_iff in L. congruence. }
    split.
    + unfold Qle, seconds_of_ms; cbn. lia.
    + apply Qnot_le_lt in N. now apply Qlt_le_weak.
Qed.

(** For a position that is not negative, the start pushed lies between
    100000 s before the clock and the clock, both truncated. *)
Theorem start_within_window (ms : Z) (now : Q) :
  (0 <= ms)%Z ->
  (int_of_float (now - inject_Z 100000) <= start_timestamp ms now
   /\ start_timestamp ms now <= int_of_float now)%Z.
Proof.
  intros P. destruct (fix_position_range ms P) as [L H].
  unfold start_timestamp.
  split; apply int_of_float_monotone; lra.
Qed.

Lemma start_within_window_witness :
  (int_of_float (inject_Z 1700000000 - inject_Z 100000)
   <= start_timestamp 61500 (inject_Z 1700000000)
   /\ start_timestamp 61500 (inject_Z 1700000000)
      <= int_of_float (inject_Z 1700000000))%Z.
Proof.
  apply (start_within_window 61500 (inject_Z 1700000000)). lia.
Defined.

(** ** Runs of the loop *)

Section LoopMore.

Variable repr : pyval -> string.
Variable cfg : settings.

Lemma update_rpc_changed (o : observation) (st : session) :
  use_direct_urls cfg || negb (custom_assets cfg) = true ->
  contains dash (track_title o) = true ->
  track_title o <> previous_track st ->
  exists e,
    update_rpc repr cfg o st
    = (ret tt, {| previous_track := track_title o; cleared := false |}, [e])
    /\ is_update e = true.
Proof.
  intros Mode C New. unfold update_rpc.
  apply String.eqb_neq in New. rewrite New. cbn [negb].
  apply split_dash_two in C. unfold trackinfo_of, all_but_last.
  destruct (split_dash (track_title o)) as [|a [|b l]]; cbn in C; try lia.
  cbn [removelast].
  match goal with
  | |- context [large_asset repr cfg o ?x ?y] =>
      destruct (large_asset_returns repr cfg o x y Mode) as [[key text] ->]
  end.
  eexists. split; reflexivity.
Qed.

Lemma tick_events_bounded (o : observation) (st : session) :
  List.length (snd (tick repr cfg o st)) <= 1.
Proof.
  unfold tick. destruct (_ || _); [cbn; lia|].
  destruct (status_eqb _ _); [|cbn; lia].
  unfold update_rpc.
  destruct (negb _); [|cbn; lia].
  destruct (trackinfo_of _); [cbn; lia|].
  destruct (large_asset _ _ _ _ _) as [e|[key text]]; cbn; lia.
Qed.

(** However the loop goes, it has made at most one call on the presence
    client per tick. *)
Theorem run_events_bounded (obs : list observation) (st : session) :
  List.length (snd (run repr cfg obs st)) <= List.length obs.
Proof.
  revert st. induction obs as [|o more IH]; intros st; [cbn; lia|].
  cbn [run]. pose proof (tick_events_bounded o st) as T.
  destruct (tick repr cfg o st) as [[[e|[]] st'] evs]; cbn [snd] in *; [cbn; lia|].
  specialize (IH st').
  destruct (run repr cfg more st') as [[r st''] evs']. cbn [snd List.length] in *.
  rewrite length_app. lia.
Qed.

Lemma run_after_tick (o : observation) (more : list observation)
      (st st' : session) (evs : list event) :
  tick repr cfg o st = (ret tt, st', evs) ->
  run repr cfg (o :: more) st
  = (fst (fst (run repr cfg more st')), snd (fst (run repr cfg more st')),
     (evs ++ snd (run repr cfg more st'))%list).
Proof.
  intros T. cbn [run]. rewrite T. unfold ret.
  now destruct (run repr cfg more st') as [[r st''] evs'].
Qed.

Lemma run_stopped_cleared (obs : list observation) (st : session) :
  Forall (fun o => playing_status o = Stopped) obs -> cleared st = true ->
  run repr cfg obs st = (ret tt, st, []).
Proof.
  intros F C. induction F as [|o more S F IH]; [reflexivity|].
  cbn [run]. unfold tick. rewrite S, C. cbn. now rewrite IH.
Qed.

Lemma run_paused (more : list observation) :
  forall (o : observation) (st : session),
    Forall (fun o => playing_status o = Paused) (o :: more) ->
    run repr cfg (o :: more) st
    = (ret tt, cleared_session, repeat RpcClear (S (List.length more))).
Proof.
  induction more as [|p more IH]; intros o st F.
  - apply Forall_inv in F. cbn [run]. unfold tick. now rewrite F.
  - pose proof (Forall_inv F) as S. apply Forall_inv_tail in F.
    rewrite (run_after_tick o (p :: more) st cleared_session [RpcClear])
      by (unfold tick; now rewrite S).
    now rewrite (IH p cleared_session F).
Qed.

(** Ticks that all find the player stopped clear the presence once if it
    was not cleared and not at all if it was; ticks that all find it paused
    clear it every time. *)
Theorem stopped_clears_once_paused_every_tick (obs : list observation) (st : session) :
  obs <> [] ->
  (Forall (fun o => playing_status o = Stopped) obs ->
     run repr cfg obs st
     = if cleared st then (ret tt, st, [])
       else (ret tt, cleared_session, [RpcClear]))
  /\ (Forall (fun o => playing_status o = Paused) obs ->
        run repr cfg obs st
        = (ret tt, cleared_session, repeat RpcClear (List.length obs))).
Proof.
  destruct obs as [|o more]; [easy|]. intros _. split.
  - intros F. destruct (cleared st) eqn:C.
    + now apply run_stopped_cleared.
    + pose proof (Forall_inv F) as S. apply Forall_inv_tail in F.
      rewrite (run_after_tick o more st cleared_session [RpcClear])
        by (unfold tick; now rewrite S, C).
      now rewrite (run_stopped_cleared more cleared_session F eq_refl).
  - apply run_paused.
Qed.

(** With the direct urls on, or the custom assets off: a title that was
    pushed is pushed again when the player is paused and then plays on,
    since the pause empties the previous track. *)
Theorem pause_then_play_pushes_again (o p o' : observation) (st : session) :
  use_direct_urls cfg || negb (custom_assets cfg) = true ->
  playing_status o = Playing -> playing_status p = Paused ->
  playing_status o' = Playing ->
  track_title o' = track_title o ->
  contains dash (track_title o) = true ->
  track_title o <> previous_track st ->
  fst (run repr cfg [o; p; o'] st)
  = (ret tt, {| previous_track := track_title o; cleared := false |})
  /\ pushes (snd (run repr cfg [o; p; o'] st)) = 2
  /\ clears (snd (run repr cfg [o; p; o'] st)) = 1.
Proof.
  intros Mode So Sp So' Same C New.
  destruct (update_rpc_changed o st Mode C New) as (e1 & U1 & P1).
  assert (New' : track_title o' <> previous_track cleared_session).
  { rewrite Same. cbn. intros E. rewrite E in C. discriminate C. }
  rewrite <- Same in C.
  destruct (update_rpc_changed o' cleared_session Mode C New') as (e2 & U2 & P2).
  rewrite (run_after_tick o [p; o'] st _ [e1])
    by (unfold tick; rewrite So; exact U1).
  rewrite (run_after_tick p [o'] _ cleared_session [RpcClear])
    by (unfold tick; now rewrite Sp).
  rewrite (run_after_tick o' [] cleared_session _ [e2])
    by (unfold tick; rewrite So'; exact U2).
  rewrite Same. cbn.
  unfold pushes, clears. cbn.
  destruct e1, e2; try discriminate. now cbn.
Qed.

End LoopMore.

Lemma stopped_clears_once_paused_every_tick_witness :
  run no_repr default_settings
      [observe Stopped "" 0 0; observe Stopped "" 0 0; observe Stopped "" 0 0] initial
  = (ret tt, cleared_session, [RpcClear])
  /\ run no_repr default_settings
         [observe Paused "" 0 0; observe Paused "" 0 0; observe Paused "" 0 0] initial
     = (ret tt, cleared_session, [RpcClear; RpcClear; RpcClear]).
Proof.
  split.
  - apply (proj1 (stopped_clears_once_paused_every_tick no_repr default_settings
                    [observe Stopped "" 0 0; observe Stopped "" 0 0;
                     observe Stopped "" 0 0] initial ltac:(discriminate))).
    repeat constructor.
  - apply (proj2 (stopped_clears_once_paused_every_tick no_repr default_settings
                    [observe Paused "" 0 0; observe Paused "" 0 0;
                     observe Paused "" 0 0] initial ltac:(discriminate))).
    repeat constructor.
Defined.

Lemma pause_then_play_pushes_again_witness :
  pushes (snd (run no_repr default_settings
                   [playing_2pac; observe Paused "" 0 0; playing_2pac] initial)) = 2.
Proof.
  apply (pause_then_play_pushes_again no_repr default_settings
           playing_2pac (observe Paused "" 0 0) playing_2pac initial);
    try reflexivity.
  cbn. discriminate.
Defined.

(** ** What [clean_string] returns *)

Lemma thinned_length (s t : string) :
  thinned s t -> String.length t <= String.length s.
Proof. induction 1; cbn; lia. Qed.

(** Whatever the text, what [clean_string] returns is no longer than it,
    has single spaces as its only whitespace, and neither begins nor ends
    with whitespace. *)
Theorem clean_string_is_tidy (x : string) :
  String.length (clean_string x) <= String.length x
  /\ tidy (clean_string x) = true
  /\ starts_in is_space (clean_string x) = false
  /\ ends_in is_space (clean_string x) = false.
Proof.
  unfold clean_string, strip, strip_by.
  set (s1 := Re.sub_group "(" ")" false x).
  set (s2 := Re.sub_group "[" "]" false s1).
  set (s3 := Re.sub_spaces false s2).
  set (s4 := lstrip_by is_space s3).
  repeat split.
  - assert (H1 : String.length s1 <= String.length x)
      by apply thinned_length, sub_group_thinned.
    assert (H2 : String.length s2 <= String.length s1)
      by apply thinned_length, sub_group_thinned.
    assert (H3 : String.length s3 <= String.length s2)
      by apply thinned_length, sub_spaces_thinned.
    assert (H4 : String.length s4 <= String.length s3)
      by apply thinned_length, lstrip_thinned.
    assert (H5 : String.length (rstrip_by is_space s4) <= String.length s4)
      by apply thinned_length, rstrip_thinned.
    lia.
  - apply rstrip_tidy, lstrip_tidy, sub_spaces_tidy.
  - apply rstrip_starts, lstrip_starts.
  - apply rstrip_ends.
Qed.

(** On a text without a line feed, [clean_string] changes nothing exactly
    when the text has no parenthesised and no bracketed group, its
    whitespace is single spaces and it neither begins nor ends with
    whitespace. *)
Theorem clean_string_fixed_points (s : string) :
  single_line s = true ->
  (clean_string s = s
   <-> no_group "(" ")" s = true /\ no_group "[" "]" s = true
       /\ tidy s = true
       /\ starts_in is_space s = false /\ ends_in is_space s = false).
Proof.
  intros L. split.
  - intros E.
    destruct (clean_string_shape s L) as (P & B & T).
    pose proof (rstrip_starts is_space _ (lstrip_starts is_space
                  (Re.sub_spaces false (Re.sub_group "[" "]" false
                     (Re.sub_group "(" ")" false s))))) as S.
    pose proof (rstrip_ends is_space (lstrip_by is_space
                  (Re.sub_spaces false (Re.sub_group "[" "]" false
                     (Re.sub_group "(" ")" false s))))) as R.
    change (starts_in is_space (clean_string s) = false) in S.
    change (ends_in is_space (clean_string s) = false) in R.
    rewrite E in *. now repeat split.
  - intros (P & B & T & S & R). unfold clean_string, strip, strip_by.
    rewrite (sub_group_fixed _ _ _ P), (sub_group_fixed _ _ _ B),
            (sub_spaces_fixed _ T), (lstrip_fixed _ _ S).
    apply rstrip_kept, R.
Qed.

Lemma clean_string_fixed_points_witness :
  clean_string "Daft Punk" = "Daft Punk".
Proof.
  apply (clean_string_fixed_points "Daft Punk"); [reflexivity|].
  repeat split.
Defined.

(** ** What [get_largest_image] returns and when it raises *)

Lemma get_truthy_getitem (img : pyval) (key : string) (x : pyval) :
  Py.get img key PNone = ret x -> Py.truthy x = true -> Py.getitem img key = ret x.
Proof.
  destruct img; try discriminate. cbn.
  destruct (Py.lookup key d); intros [= <-]; [reflexivity | discriminate].
Qed.

Lemma image_of_size_true (size : string) (img : pyval) :
  image_of_size size img = ret true ->
  exists x, Py.get img "#text" PNone = ret x /\ Py.truthy x = true.
Proof.
  unfold image_of_size.
  destruct (Py.get img "size" PNone) as [e|label]; [discriminate|]. cbn [bind].
  destruct (Py.eq_str label size); [|discriminate].
  destruct (Py.get img "#text" PNone) as [e|x]; [discriminate|]. cbn.
  intros [= T]. eauto.
Qed.

Lemma image_with_url_true (img : pyval) :
  image_with_url img = ret true ->
  exists x, Py.get img "#text" PNone = ret x /\ Py.truthy x = true.
Proof.
  unfold image_with_url.
  destruct (Py.get img "#text" PNone) as [e|x]; [discriminate|]. cbn.
  intros [= T]. eauto.
Qed.

Lemma first_image_truthy (test : pyval -> res bool) (imgs : list pyval) (u : pyval) :
  (forall img, test img = ret true ->
     exists x, Py.get img "#text" PNone = ret x /\ Py.truthy x = true) ->
  first_image test imgs = ret (Some u) ->
  Py.truthy u = true /\ exists img, In img imgs /\ Py.getitem img "#text" = ret u.
Proof.
  intros T. induction imgs as [|img rest IH]; cbn [first_image]; [discriminate|].
  destruct (test img) as [e|[|]] eqn:Ti; cbn [bind]; [discriminate| |].
  - destruct (T img Ti) as (x & G & Tx).
    rewrite (get_truthy_getitem img _ x G Tx). cbn. intros [= <-].
    split; [exact Tx|]. exists img. split; [now left|].
    now apply get_truthy_getitem.
  - intros F. destruct (IH F) as (Tu & img' & I & G).
    split; [exact Tu|]. exists img'. split; [now right | exact G].
Qed.

Lemma largest_from_truthy (sizes : list string) (imgs : list pyval) (u : pyval) :
  largest_from sizes (PList imgs) = ret u ->
  u = PNone
  \/ (Py.truthy u = true /\ exists img, In img imgs /\ Py.getitem img "#text" = ret u).
Proof.
  induction sizes as [|size more IH]; cbn [largest_from Py.iter bind ret].
  - destruct (first_image image_with_url imgs) as [e|[v|]] eqn:F; cbn;
      [discriminate| |].
    + intros [= <-]. right. exact (first_image_truthy _ _ _ image_with_url_true F).
    + intros [= <-]. now left.
  - destruct (first_image (image_of_size size) imgs) as [e|[v|]] eqn:F; cbn;
      [discriminate| |].
    + intros [= <-]. right.
      exact (first_image_truthy _ _ _ (image_of_size_true size) F).
    + exact IH.
Qed.

(** When [get_largest_image] returns from a list of images, it returns
    [None] or the ['#text'] of one of them, and that is never empty. *)
Theorem largest_image_is_a_url_of_the_list (imgs : list pyval) (u : pyval) :
  get_largest_image (PList imgs) = ret u ->
  u = PNone
  \/ (Py.truthy u = true /\ exists img, In img imgs /\ Py.getitem img "#text" = ret u).
Proof.
  unfold get_largest_image.
  destruct (negb (Py.truthy (PList imgs))).
  - intros [= <-]. now left.
  - apply largest_from_truthy.
Qed.

Lemma largest_image_is_a_url_of_the_list_witness :
  PStr "B" = PNone
  \/ (Py.truthy (PStr "B") = true
      /\ exists img, In img [image "large" "A"; image "extralarge" "B"]
                     /\ Py.getitem img "#text" = ret (PStr "B")).
Proof.
  apply (largest_image_is_a_url_of_the_list
           [image "large" "A"; image "extralarge" "B"] (PStr "B")).
  reflexivity.
Defined.

(** What is empty or [None] gives [None]; a list whose first item is not a
    dict, and a string that is not empty, end in [AttributeError]; a number
    or [True] ends in [TypeError]. *)
Theorem largest_image_edge_cases (v : pyval) :
  (Py.truthy v = false -> get_largest_image v = ret PNone)
  /\ (forall x rest, v = PList (x :: rest) -> is_dict x = false ->
        get_largest_image v = raise AttributeError)
  /\ (forall s, v = PStr s -> s <> "" -> get_largest_image v = raise AttributeError)
  /\ (Py.truthy v = true -> Py.iter v = raise TypeError ->
        get_largest_image v = raise TypeError).
Proof.
  split; [|split; [|split]].
  - intros F. unfold get_largest_image. now rewrite F.
  - intros x rest -> D. unfold get_largest_image. cbn.
    unfold image_of_size. now destruct x.
  - intros s -> N. unfold get_largest_image.
    destruct s as [|c s]; [contradiction|]. reflexivity.
  - intros T I. unfold get_largest_image. rewrite T. cbn.
    now rewrite I.
Qed.

Lemma largest_image_edge_cases_witness :
  get_largest_image (PList []) = ret PNone
  /\ get_largest_image (PList [PStr "http://img/a.png"]) = raise AttributeError
  /\ get_largest_image (PStr "http://img/a.png") = raise AttributeError
  /\ get_largest_image (PInt 5) = raise TypeError.
Proof.
  split; [|split; [|split]].
  - apply (proj1 (largest_image_edge_cases (PList []))). reflexivity.
  - apply (proj1 (proj2 (largest_image_edge_cases (PList [PStr "http://img/a.png"])))
             (PStr "http://img/a.png") []); reflexivity.
  - apply (proj1 (proj2 (proj2 (largest_image_edge_cases (PStr "http://img/a.png"))))
             "http://img/a.png"); [reflexivity | discriminate].
  - apply (proj2 (proj2 (proj2 (largest_image_edge_cases (PInt 5))))); reflexivity.
Defined.

(** ** The two tiers on a document *)

(** Neither tier raises, whatever the service does. *)
Theorem tiers_never_raise (api : lastfm) (artist track : string) :
  (exists pair, get_album_from_track api artist track = ret pair)
  /\ (exists pair, get_album_from_artist api artist = ret pair).
Proof.
  split; [apply get_album_from_track_returns | apply get_album_from_artist_returns].
Qed.

(** On a document that is a dict, the track tier finds nothing when
    ["track"] is missing or when the track, a dict, has no ["album"]; when
    the album is a dict it returns its title, [""] if there is none, and the
    largest image, and nothing at all when the images make
    [get_largest_image] raise. *)
Theorem track_tier_on_a_document (api : lastfm) (artist track : string)
        (d : list (string * pyval)) :
  track_getInfo api artist track = ret (PDict d) ->
  (Py.lookup "track" d = None ->
     get_album_from_track api artist track = ret (PNone, PNone))
  /\ (forall td, Py.lookup "track" d = Some (PDict td) ->
        Py.lookup "album" td = None ->
        get_album_from_track api artist track = ret (PNone, PNone))
  /\ (forall td ad, Py.lookup "track" d = Some (PDict td) ->
        Py.lookup "album" td = Some (PDict ad) ->
        get_album_from_track api artist track
        = match get_largest_image (get_or ad "image" (PList [])) with
          | inr image_url => ret (get_or ad "title" (PStr ""), image_url)
          | inl _ => ret (PNone, PNone)
          end).
Proof.
  intros D. unfold get_album_from_track. rewrite D.
  split; [|split].
  - intros N. cbn. now rewrite N.
  - intros td T N. cbn. rewrite T. cbn. now rewrite N.
  - intros td ad T A. cbn. rewrite T. cbn. rewrite A. cbn. unfold get_or.
    now destruct (get_largest_image _).
Qed.

Lemma track_tier_on_a_document_witness :
  get_album_from_track numeric_title "X" "Song"
  = ret (PInt 5, PStr "http://img/5.png").
Proof.
  apply (proj2 (proj2 (track_tier_on_a_document numeric_title "X" "Song" _ eq_refl))
           [("album",
             PDict [("title", PInt 5);
                    ("image", PList [image "large" "http://img/5.png"])])]
           [("title", PInt 5);
            ("image", PList [image "large" "http://img/5.png"])]);
    reflexivity.
Defined.

(** In the artist tier an album that comes as one dict, not empty, gives
    what the list of that one album gives; an empty list of albums gives
    nothing. *)
Theorem artist_tier_single_album (api1 api2 : lastfm) (artist : string)
        (ad : list (string * pyval)) :
  ad <> [] ->
  artist_getTopAlbums api1 artist = ret (top_albums_doc (PDict ad)) ->
  artist_getTopAlbums api2 artist = ret (top_albums_doc (PList [PDict ad])) ->
  get_album_from_artist api1 artist = get_album_from_artist api2 artist
  /\ (forall api3, artist_getTopAlbums api3 artist = ret (top_albums_doc (PList [])) ->
        get_album_from_artist api3 artist = ret (PNone, PNone)).
Proof.
  intros N D1 D2. split.
  - unfold get_album_from_artist. rewrite D1, D2.
    destruct ad as [|kv ad]; [contradiction|]. reflexivity.
  - intros api3 D3. unfold get_album_from_artist. now rewrite D3.
Qed.

Lemma artist_tier_single_album_witness :
  get_album_from_artist
    {| track_getInfo := fun _ _ => raise (External "Timeout");
       artist_getTopAlbums := fun _ => ret (top_albums_doc (PDict best_hits)) |} "X"
  = get_album_from_artist
      {| track_getInfo := fun _ _ => raise (External "Timeout");
         artist_getTopAlbums := fun _ => ret (top_albums_doc (PList [PDict best_hits])) |}
      "X".
Proof.
  apply (artist_tier_single_album _ _ "X" best_hits);
    [discriminate | reflexivity | reflexivity].
Defined.

(** ** What the resolver hands to the presence *)

Section ResolverMore.

Variable repr : pyval -> string.
Variable cfg : settings.

Lemma fallback_or_logo_truthy : Py.truthy (fallback_or_logo cfg) = true.
Proof.
  unfold fallback_or_logo.
  destruct (String.eqb (fallback_image_url cfg) "") eqn:E; cbn; [reflexivity|].
  now rewrite E.
Qed.

(** The end of the body, from the album name and image url it has settled
    on: the name or the artist as text, the url or the fallback as image,
    the two-character rule. *)
Lemma body_end (artist : string) (n u key text : pyval) :
  bind (Py.len (if Py.truthy n then n else PStr artist))
       (fun k =>
          ret (if negb (Py.truthy u) then fallback_or_logo cfg else u,
               if Nat.ltb k 2
               then PStr ("Album: " ++ format repr (if Py.truthy n then n else PStr artist))
               else if Py.truthy n then n else PStr artist))
  = ret (key, text) ->
  Py.truthy key = true /\ exists k, Py.len text = ret k /\ 2 <= k.
Proof.
  destruct (Py.len (if Py.truthy n then n else PStr artist)) as [e|k] eqn:L;
    cbn [bind]; [discriminate|].
  intros [= <- <-]. split.
  - destruct (Py.truthy u) eqn:T; [exact T | apply fallback_or_logo_truthy].
  - destruct (Nat.ltb_spec k 2).
    + eexists. split; [reflexivity|]. cbn. lia.
    + exists k. split; [exact L | assumption].
Qed.

Lemma body_returns (api : lastfm) (artist track_name : string) (key text : pyval) :
  album_art_url_body repr cfg api artist track_name = ret (key, text) ->
  Py.truthy key = true /\ exists k, Py.len text = ret k /\ 2 <= k.
Proof.
  unfold album_art_url_body.
  destruct (get_album_from_track api _ _) as [e|[n u]]; cbn [bind]; [discriminate|].
  destruct (negb (Py.truthy n) || negb (Py.truthy u)).
  - destruct (get_album_from_artist api _) as [e|[n' u']]; cbn [bind]; [discriminate|].
    apply body_end.
  - cbn [bind ret]. apply body_end.
Qed.

(** The image the resolver returns is never empty, and the text has at
    least two characters or items unless it is the artist name returned
    after an exception. *)
Theorem resolver_result_is_usable (api : lastfm) (artist track_name : string)
        (key text : pyval) :
  get_album_art_url repr cfg api artist track_name = ret (key, text) ->
  Py.truthy key = true
  /\ ((exists k, Py.len text = ret k /\ 2 <= k) \/ text = PStr artist).
Proof.
  unfold get_album_art_url, try_except.
  destruct (album_art_url_body repr cfg api artist track_name) as [e|[k t]] eqn:B.
  - intros [= <- <-]. split; [apply fallback_or_logo_truthy | now right].
  - intros [= <- <-]. destruct (body_returns _ _ _ _ _ B) as [K T].
    split; [exact K | now left].
Qed.

(** When the track tier gives an album name of two characters or more
    and an image, that pair is the result and the artist tier has no part
    in it. *)
Theorem track_tier_result_is_final (api : lastfm) (artist track_name name : string)
        (url : pyval) :
  get_album_from_track api (clean_string artist) (clean_string track_name)
  = ret (PStr name, url) ->
  Py.truthy url = true -> 2 <= String.length name ->
  get_album_art_url repr cfg api artist track_name = ret (url, PStr name).
Proof.
  intros T U L. unfold get_album_art_url, album_art_url_body. rewrite T.
  cbn [bind ret].
  destruct name as [|c [|c' name]]; cbn in L; try lia.
  cbn. rewrite U. cbn. now rewrite U.
Qed.

(** When the track tier lacks the album name or the image, what it has is
    dropped: the result comes from the artist tier alone, and if that finds
    nothing it is the fallback image with the artist as text. *)
Theorem incomplete_track_tier_is_dropped (api : lastfm) (artist track_name : string)
        (n u : pyval) :
  get_album_from_track api (clean_string artist) (clean_string track_name)
  = ret (n, u) ->
  Py.truthy n && Py.truthy u = false ->
  (forall name url,
      get_album_from_artist api (clean_string artist) = ret (PStr name, url) ->
      Py.truthy url = true -> 2 <= String.length name ->
      get_album_art_url repr cfg api artist track_name = ret (url, PStr name))
  /\ (get_album_from_artist api (clean_string artist) = ret (PNone, PNone) ->
        get_album_art_url repr cfg api artist track_name
        = ret (fallback_or_logo cfg, PStr (album_padded artist))).
Proof.
  intros T Q.
  assert (Q' : negb (Py.truthy n) || negb (Py.truthy u) = true)
    by (destruct (Py.truthy n), (Py.truthy u); easy).
  unfold get_album_art_url, album_art_url_body. rewrite T. cbn [bind ret]. rewrite Q'.
  split.
  - intros name url A U L. rewrite A. cbn [bind ret].
    destruct name as [|c [|c' name]]; cbn in L; try lia.
    cbn. now rewrite U.
  - intros A. rewrite A. cbn. unfold album_padded, Nat.ltb.
    now destruct (Nat.leb _ _).
Qed.

End ResolverMore.

Lemma resolver_result_is_usable_witness :
  Py.truthy (PStr "logo") = true
  /\ ((exists k, Py.len (PStr "X") = ret k /\ 2 <= k) \/ PStr "X" = PStr "X").
Proof.
  apply (resolver_result_is_usable no_repr default_settings numeric_title "X" "Song").
  reflexivity.
Defined.

Lemma track_tier_result_is_final_witness :
  get_album_art_url no_repr default_settings title_and_image "Daft Punk" "One More Time"
  = ret (PStr "http://img/d.png", PStr "Discovery").
Proof.
  apply (track_tier_result_is_final no_repr default_settings title_and_image);
    [reflexivity | reflexivity | cbn; lia].
Defined.

Lemma incomplete_track_tier_is_dropped_witness :
  get_album_art_url no_repr default_settings title_without_image
                    "Daft Punk" "One More Time"
  = ret (PStr "http://img/s.png", PStr "Best Hits").
Proof.
  apply (proj1 (incomplete_track_tier_is_dropped no_repr default_settings
                  title_without_image "Daft Punk" "One More Time"
                  (PStr "Discovery") PNone eq_refl eq_refl));
    [reflexivity | reflexivity | cbn; lia].
Defined.

(** ** The custom assets *)

Lemma py_index_in_range {A} (l : list A) (i : Z) :
  (- Z.of_nat (List.length l) <= i < Z.of_nat (List.length l))%Z ->
  exists x, py_index l i = ret x /\ In x l.
Proof.
  intros R. unfold py_index.
  set (n := Z.of_nat (List.length l)) in *.
  set (k := if (i <? 0)%Z then (i + n)%Z else i).
  assert (K : (0 <= k < n)%Z) by (subst k; destruct (Z.ltb_spec i 0); lia).
  replace ((0 <=? k)%Z && (k <? n)%Z) with true
    by (symmetry; apply andb_true_intro; split; [apply Z.leb_le | apply Z.ltb_lt]; lia).
  destruct (nth_error l (Z.to_nat k)) as [x|] eqn:N.
  - exists x. split; [reflexivity | exact (nth_error_In _ _ N)].
  - apply nth_error_None in N. subst n. lia.
Qed.

Lemma py_index_out_of_range {A} (l : list A) (i : Z) :
  (i < - Z.of_nat (List.length l) \/ Z.of_nat (List.length l) <= i)%Z ->
  py_index l i = raise IndexError.
Proof.
  intros R. unfold py_index.
  set (n := Z.of_nat (List.length l)) in *.
  destruct (Z.ltb_spec i 0).
  - destruct (Z.leb_spec 0 (i + n)); [lia | reflexivity].
  - destruct (Z.leb_spec 0 i); [|reflexivity].
    destruct (Z.ltb_spec i n); [lia | reflexivity].
Qed.

Section CustomAssets.

Variable cfg : settings.

Lemma get_album_art_from_folder (album artist : string) :
  exists key text,
    get_album_art cfg (ret album) artist = ret (key, PStr text)
    /\ 2 <= String.length text
    /\ match Py.lookup (album_key cfg album artist) (album_asset_keys cfg) with
       | Some found => key = found /\ text = album_padded album
       | None => key = PStr (default_large_key cfg)
       end.
Proof.
  unfold get_album_art. cbn [bind ret]. fold (album_key cfg album artist).
  destruct (Py.lookup (album_key cfg album artist) (album_asset_keys cfg)) as [found|].
  - do 2 eexists. split; [reflexivity|]. unfold album_padded. split.
    + destruct (Nat.ltb_spec (String.length album) 2); [cbn; lia | lia].
    + now split.
  - do 2 eexists. split; [reflexivity|]. split; [|reflexivity].
    match goal with
    | |- context [Nat.ltb (String.length ?t) 2] =>
        destruct (Nat.ltb_spec (String.length t) 2); [cbn; lia | lia]
    end.
Qed.

(** [get_album_art] raises what reading the playlist raises and nothing
    else.  From an album folder it returns a text of two characters or
    more; on a hit in the table the image is the value found under the
    album, or under "artist - album" for an album of the exceptions, and
    the text is the album; on a miss the image is the default key. *)
Theorem custom_assets_result (album artist : string) :
  (forall e, get_album_art cfg (raise e) artist = raise e)
  /\ exists key text,
       get_album_art cfg (ret album) artist = ret (key, PStr text)
       /\ 2 <= String.length text
       /\ match Py.lookup (album_key cfg album artist) (album_asset_keys cfg) with
          | Some found => key = found /\ text = album_padded album
          | None => key = PStr (default_large_key cfg)
          end.
Proof. split; [reflexivity | apply get_album_art_from_folder]. Qed.

Variable dirname basename : string -> string.

(** With the playlist read, [get_album_art] raises [IndexError] when the
    position of the track is outside the playlist, and returns otherwise; a
    negative position counts from the end. *)
Theorem playlist_position_out_of_range (paths : list string)
        (track_position : Z) (artist : string) :
  ((track_position < - Z.of_nat (List.length paths)
    \/ Z.of_nat (List.length paths) <= track_position)%Z ->
   get_album_art cfg (album_folder_of dirname basename (ret paths) track_position) artist
   = raise IndexError)
  /\ ((- Z.of_nat (List.length paths) <= track_position
       < Z.of_nat (List.length paths))%Z ->
      exists path key text,
        In path paths
        /\ get_album_art cfg
             (album_folder_of dirname basename (ret paths) track_position) artist
           = get_album_art cfg (ret (basename (dirname path))) artist
        /\ get_album_art cfg (ret (basename (dirname path))) artist = ret (key, text)).
Proof.
  split; intros R; unfold album_folder_of; cbn [bind ret].
  - now rewrite (py_index_out_of_range paths track_position R).
  - destruct (py_index_in_range paths track_position R) as (path & -> & I).
    destruct (get_album_art_from_folder (basename (dirname path)) artist)
      as (key & text & G & _).
    exists path, key, (PStr text). cbn [bind]. now repeat split.
Qed.

End CustomAssets.

Lemma playlist_position_out_of_range_witness :
  get_album_art default_settings
    (album_folder_of (fun p => p) (fun p => p)
                     (ret ["C:\Music\Discovery\01.mp3"]) 1) "Daft Punk"
  = raise IndexError.
Proof.
  apply (proj1 (playlist_position_out_of_range default_settings
                  (fun p => p) (fun p => p) ["C:\Music\Discovery\01.mp3"] 1 "Daft Punk")).
  cbn. lia.
Defined.

(** ** The start of the script *)

Module StartupFacts.

Import Startup.

(** Goes through the reads of the settings of a run of [startup] that
    returns. *)
Ltac reads :=
  repeat match goal with
         | |- bind ?m _ = ret _ -> _ =>
             let e := fresh "e" in
             let v := fresh "v" in
             let E := fresh "E" in
             destruct m as [e|v] eqn:E; cbn [bind]; [discriminate|]
         end.

(** When the loop starts with the direct urls on, the Last.FM key is not
    empty and is not the placeholder of the written settings. *)
Theorem direct_urls_need_a_key (settings_file : file pyval)
        (exceptions_file : file (list string)) (covers_file : file pyval)
        (g : globals) :
  startup settings_file exceptions_file covers_file = ret g ->
  Py.truthy (use_direct_urls g) = true ->
  Py.truthy (lastfm_api_key g) = true
  /\ Py.eq_str (lastfm_api_key g) placeholder = false.
Proof.
  unfold startup. reads.
  destruct (Py.truthy v0 && (negb (Py.truthy v1) || Py.eq_str v1 placeholder)) eqn:C.
  - destruct (Py.truthy v7 && negb (Py.truthy (PBool false)));
      [destruct covers_file|]; intros [= <-]; discriminate.
  - assert (K : Py.truthy v0 = true ->
                Py.truthy v1 = true /\ Py.eq_str v1 placeholder = false).
    { intros T. rewrite T in C. cbn in C.
      apply orb_false_elim in C as [A B]. now apply negb_false_iff in A. }
    destruct (Py.truthy v7 && negb (Py.truthy v0));
      [destruct covers_file|]; intros [= <-]; exact K.
Qed.

(** When the loop starts with the custom assets on and the direct urls
    off, so that [get_album_art] is what the driver calls, both tables have
    been assigned: the covers file was there, and the exceptions are the
    lines of their file or none. *)
Theorem custom_assets_have_their_tables (settings_file : file pyval)
        (exceptions_file : file (list string)) (covers_file : file pyval)
        (g : globals) :
  startup settings_file exceptions_file covers_file = ret g ->
  Py.truthy (custom_assets g) = true ->
  Py.truthy (use_direct_urls g) = false ->
  exists table,
    covers_file = Found table
    /\ album_asset_keys g = Some table
    /\ album_exceptions g
       = Some (match exceptions_file with Found lines => lines | Missing => [] end).
Proof.
  unfold startup. reads.
  set (direct := if Py.truthy v0 && (negb (Py.truthy v1) || Py.eq_str v1 placeholder)
                 then PBool false else v0).
  destruct (Py.truthy v7 && negb (Py.truthy direct)) eqn:C.
  - destruct covers_file as [|table]; intros [= <-]; cbn.
    + discriminate.
    + intros _ _. now exists table.
  - intros [= <-]; cbn. intros T D. rewrite T, D in C. discriminate C.
Qed.

Lemma read_settings_missing_key (d : list (string * pyval)) (k : string) :
  In k required_keys -> Py.lookup k d = None ->
  read_settings (PDict d) = raise KeyError.
Proof.
  intros I N. unfold read_settings.
  cbn [Py.getitem Py.get bind ret].
  destruct (Py.lookup "client_id" d) eqn:L1; [|reflexivity].
  destruct (Py.lookup "default_large_asset_key" d) eqn:L2; [|reflexivity].
  destruct (Py.lookup "default_large_asset_text" d) eqn:L3; [|reflexivity].
  destruct (Py.lookup "small_asset_key" d) eqn:L4; [|reflexivity].
  destruct (Py.lookup "small_asset_text" d) eqn:L5; [|reflexivity].
  destruct (Py.lookup "custom_assets" d) eqn:L6; [|reflexivity].
  cbn in I. exfalso.
  repeat (destruct I as [<-|I]; [congruence|]). exact I.
Qed.

Lemma startup_missing_key (d : list (string * pyval)) (k : string)
      (exceptions_file : file (list string)) (covers_file : file pyval) :
  In k required_keys -> Py.lookup k d = None ->
  startup (Found (PDict d)) exceptions_file covers_file = raise KeyError.
Proof.
  intros I N. unfold startup.
  cbn [load_settings Py.getitem Py.get bind ret].
  destruct (Py.lookup "client_id" d) eqn:L1; [|reflexivity].
  destruct (Py.lookup "default_large_asset_key" d) eqn:L2; [|reflexivity].
  destruct (Py.lookup "default_large_asset_text" d) eqn:L3; [|reflexivity].
  destruct (Py.lookup "small_asset_key" d) eqn:L4; [|reflexivity].
  destruct (Py.lookup "small_asset_text" d) eqn:L5; [|reflexivity].
  destruct (Py.lookup "custom_assets" d) eqn:L6; [|reflexivity].
  cbn in I. exfalso.
  repeat (destruct I as [<-|I]; [congruence|]). exact I.
Qed.

(** The reads of the settings, up to the check of the key, end in
    [TypeError] on settings that are not a dict; on a dict they go through
    exactly when the six keys read with [settings[...]] are there, the three
    read with [get] being free to miss, and end in [KeyError] when one of
    the six is missing, as does the script then. *)
Theorem settings_reads_need_six_keys (settings : pyval) :
  (is_dict settings = false -> read_settings settings = raise TypeError)
  /\ (forall d, settings = PDict d ->
        ((forall k, In k required_keys -> Py.lookup k d <> None) ->
         exists g, read_settings settings = ret g)
        /\ (forall k, In k required_keys -> Py.lookup k d = None ->
              read_settings settings = raise KeyError
              /\ forall exceptions_file covers_file,
                   startup (Found settings) exceptions_file covers_file
                   = raise KeyError)).
Proof.
  split.
  - intros D. now destruct settings.
  - intros d ->. split.
    + intros All.
      assert (H : forall k, In k required_keys -> exists x, Py.lookup k d = Some x).
      { intros k I. specialize (All k I). destruct (Py.lookup k d); [eauto | easy]. }
      unfold required_keys in H. unfold read_settings.
      cbn [Py.getitem Py.get bind ret].
      destruct (H "client_id") as [x1 ->]; [cbn; tauto|].
      destruct (H "default_large_asset_key") as [x2 ->]; [cbn; tauto|].
      destruct (H "default_large_asset_text") as [x3 ->]; [cbn; tauto|].
      destruct (H "small_asset_key") as [x4 ->]; [cbn; tauto|].
      destruct (H "small_asset_text") as [x5 ->]; [cbn; tauto|].
      destruct (H "custom_assets") as [x6 ->]; [cbn; tauto|].
      cbn [bind ret]. eauto.
    + intros k I N. split.
      * exact (read_settings_missing_key d k I N).
      * intros ef cf. exact (startup_missing_key d k ef cf I N).
Qed.

(** Without a settings file the script goes on with the settings it
    writes: the key is the placeholder, so the direct urls are switched off,
    the custom assets are off, no table is read, and the driver pushes the
    logo. *)
Theorem first_run_shows_the_logo (exceptions_file : file (list string))
        (covers_file : file pyval) :
  exists g,
    startup Missing exceptions_file covers_file = ret g
    /\ use_direct_urls g = PBool false
    /\ custom_assets g = PBool false
    /\ client_id g = PStr "507484022675603456"
    /\ album_exceptions g = None /\ album_asset_keys g = None.
Proof. eexists. repeat split. Qed.

End StartupFacts.

Lemma direct_urls_need_a_key_witness :
  Py.truthy (PStr "0123456789abcdef") = true
  /\ Py.eq_str (PStr "0123456789abcdef") Startup.placeholder = false.
Proof.
  apply (StartupFacts.direct_urls_need_a_key
           (Startup.Found
              (PDict [("client_id", PStr "default");
                      ("use_direct_urls", PBool true);
                      ("lastfm_api_key", PStr "0123456789abcdef");
                      ("default_large_asset_key", PStr "logo");
                      ("default_large_asset_text", PStr "winamp version");
                      ("small_asset_key", PStr "playbutton");
                      ("small_asset_text", PStr "Playing");
                      ("custom_assets", PBool false)]))
           Startup.Missing Startup.Missing
           {| Startup.client_id := PStr "507484022675603456";
              Startup.use_direct_urls := PBool true;
              Startup.lastfm_api_key := PStr "0123456789abcdef";
              Startup.fallback_image_url := PStr "";
              Startup.default_large_key := PStr "logo";
              Startup.default_large_text := PStr "winamp version";
              Startup.small_asset_key := PStr "playbutton";
              Startup.small_asset_text := PStr "Playing";
              Startup.custom_assets := PBool false;
              Startup.album_exceptions := None;
              Startup.album_asset_keys := None |});
    reflexivity.
Defined.

Lemma custom_assets_have_their_tables_witness :
  exists table,
    Startup.Found (PDict [("Discovery", PStr "discovery")]) = Startup.Found table
    /\ Startup.album_asset_keys (custom_globals (PDict [("Discovery", PStr "discovery")]))
       = Some table
    /\ Startup.album_exceptions (custom_globals (PDict [("Discovery", PStr "discovery")]))
       = Some [].
Proof.
  apply (StartupFacts.custom_assets_have_their_tables
           (Startup.Found (PDict custom_settings_doc)) Startup.Missing
           (Startup.Found (PDict [("Discovery", PStr "discovery")]))
           (custom_globals (PDict [("Discovery", PStr "discovery")])));
    reflexivity.
Defined.

Lemma settings_reads_need_six_keys_witness :
  Startup.read_settings (PList []) = raise TypeError
  /\ (exists g, Startup.read_settings (PDict custom_settings_doc) = ret g)
  /\ Startup.read_settings (PDict [("client_id", PStr "default")]) = raise KeyError.
Proof.
  split; [|split].
  - apply (proj1 (StartupFacts.settings_reads_need_six_keys (PList []))).
    reflexivity.
  - apply (proj1 (proj2 (StartupFacts.settings_reads_need_six_keys
                           (PDict custom_settings_doc)) _ eq_refl)).
    intros k I. cbn in I.
    repeat (destruct I as [<-|I]; [discriminate|]). destruct I.
  - apply (proj2 (proj2 (StartupFacts.settings_reads_need_six_keys
                           (PDict [("client_id", PStr "default")])) _ eq_refl)
             "custom_assets"); [cbn; tauto | reflexivity].
Defined.

(** ** The segments of a title *)

Lemma starts_with_app (p a r : string) :
  starts_with p a = true -> starts_with p (a ++ r) = true.
Proof.
  revert a. induction p as [|c p IH]; intros a; [reflexivity|].
  destruct a as [|d a]; cbn [starts_with append]; [discriminate|].
  intros E. apply andb_prop in E as [-> E]. now rewrite (IH a E).
Qed.

Lemma first_segment_is_a_prefix (s : string) :
  forall seg segs, split_dash s = seg :: segs -> exists r, s = seg ++ r.
Proof.
  induction s as [| s IH | c s S IH] using split_dash_scan; intros seg segs.
  - intros [= <- _]. now exists EmptyString.
  - rewrite split_dash_at_dash. intros [= <- _]. now exists (dash ++ s).
  - rewrite (split_dash_at_char c s S).
    pose proof (split_dash_not_nil s) as N.
    destruct (split_dash s) as [|x xs]; [easy|]. cbn [push_char].
    intros [= <- _]. destruct (IH x xs eq_refl) as [r ->].
    now exists r.
Qed.

(** No segment of a title contains the delimiter, so neither does the
    segment the artist is taken from. *)
Theorem segments_have_no_delimiter (s : string) :
  Forall (fun seg => no_dash seg = true) (split_dash s)
  /\ Forall (fun seg => no_dash seg = true) (trackinfo_of s).
Proof.
  assert (G : Forall (fun seg => no_dash seg = true) (split_dash s)).
  { induction s as [| s IH | c s S IH] using split_dash_scan.
    - now repeat constructor.
    - rewrite split_dash_at_dash. now constructor.
    - rewrite (split_dash_at_char c s S).
      pose proof (split_dash_not_nil s) as N.
      destruct (split_dash s) as [|x xs] eqn:E; [easy|]. cbn [push_char].
      pose proof (Forall_inv IH) as X. apply Forall_inv_tail in IH.
      constructor; [|exact IH].
      unfold no_dash in *. apply negb_true_iff in X. apply negb_true_iff.
      cbn [contains]. rewrite X, orb_false_r.
      destruct (starts_with dash (String c x)) eqn:W; [|reflexivity].
      destruct (first_segment_is_a_prefix s x xs E) as [r ->].
      rewrite <- S. symmetry.
      exact (starts_with_app dash (String c x) r W). }
  split; [exact G|].
  unfold trackinfo_of, all_but_last.
  apply Forall_forall. intros seg I.
  rewrite Forall_forall in G. apply G.
  clear G. induction (split_dash s) as [|a l IH]; [easy|].
  destruct l as [|b l]; [easy|].
  cbn [removelast] in I. destruct I as [<-|I]; [now left | right; auto].
Qed.

Lemma trackinfo_empty_iff_no_delimiter_witness :
  trackinfo_of "Winamp" = [] /\ split_dash "Winamp" = ["Winamp"].
Proof.
  destruct (trackinfo_empty_iff_no_delimiter "Winamp") as [[T _] W].
  split; [apply T | apply W]; reflexivity.
Defined.

Lemma update_rpc_pushes_well_formed_witness :
  exists details artist start key text,
    RpcUpdate "Changes" "by Pac" 1700000000
              (PStr "logo") "playbutton" (PStr "Pac") "Playing"
    = RpcUpdate details ("by " ++ artist) start key "playbutton" text "Playing"
    /\ 2 <= String.length details.
Proof.
  apply (proj2 (update_rpc_pushes_well_formed no_repr default_settings
                  playing_2pac initial)).
  now left.
Defined.
